(** * The document scanner: page-sequence operations and the image pipeline

    A shallow embedding of [main.py] (the page-sequence helpers) and of
    [processing.py] (corner detection, perspective rectification, page
    cleaning and their orchestration).

    - numpy arrays, which the program shares between stages and updates in
      place, live in an explicit store and are passed by reference; a
      stage is a computation over the store that returns or raises.
    - The program's own control flow is written out: the loops, the
      [try]/[except] blocks, the sort and the slice, the index and shape
      arithmetic of numpy, the channel check of [cv2.cvtColor], erosion
      and dilation.
    - The OpenCV and scikit-image primitives whose results the program
      only passes along (blur, edge detection, contour extraction and
      measurement, homography, warp, Sauvola threshold) are an interface,
      [CV2]; each call may fail.
    - Python floats (areas, perimeters, tolerances, thresholds) are exact
      rationals. *)

From Stdlib Require Import ZArith QArith Lia List String.
From Stdlib Require Import Sorting.Permutation Sorting.Sorted.
From stdpp Require Import base option list.

Local Open Scope Z_scope.

(** ** Exceptions and results *)

Inductive exn :=
| ValueError (msg : string)      (* raised by the program or by numpy *)
| IndexError                     (* list subscript out of range *)
| TypeError                      (* an object of the wrong kind *)
| cv2_error (msg : string)       (* an OpenCV argument check *)
| LibraryError (code : nat).     (* any failure inside a library call *)

Inductive result (A : Type) :=
| Ret (a : A)
| Raise (e : exn).
Arguments Ret {A} a.
Arguments Raise {A} e.

(** ** Page sequence ([main.py]) *)

Module PageSequence.
Section Ops.
Context {A : Type}.

(** Python's list subscript: a negative index counts from the end. *)
Definition py_index (n : nat) (i : Z) : result nat :=
  if (0 <=? i) && (i <? Z.of_nat n) then Ret (Z.to_nat i)
  else if (- Z.of_nat n <=? i) && (i <? 0) then Ret (Z.to_nat (Z.of_nat n + i))
  else Raise IndexError.

Definition getitem (l : list A) (i : Z) : result A :=
  match py_index (length l) i with
  | Ret j => match l !! j with Some a => Ret a | None => Raise IndexError end
  | Raise e => Raise e
  end.

Definition setitem (l : list A) (i : Z) (a : A) : result (list A) :=
  match py_index (length l) i with
  | Ret j => Ret (<[j := a]> l)
  | Raise e => Raise e
  end.

(** [a[i], a[j] = a[j], a[i]]: the right-hand side is evaluated left to
    right, then the targets are assigned left to right. *)
Definition swap_assign (l : list A) (i j : Z) : result (list A) :=
  match getitem l j with
  | Raise e => Raise e
  | Ret vj =>
    match getitem l i with
    | Raise e => Raise e
    | Ret vi =>
      match setitem l i vj with
      | Raise e => Raise e
      | Ret l1 => setitem l1 j vi
      end
    end
  end.

Definition move_image_up (image_list : list A) (index : Z) : result (list A) :=
  if 0 <? index then swap_assign image_list index (index - 1)
  else Ret image_list.

Definition move_image_down (image_list : list A) (index : Z) : result (list A) :=
  if index <? Z.of_nat (length image_list) - 1
  then swap_assign image_list index (index + 1)
  else Ret image_list.

(** [list.pop(index)], the popped element dropped. *)
Definition pop (l : list A) (i : Z) : result (list A) :=
  match py_index (length l) i with
  | Ret j => Ret (delete j l)
  | Raise e => Raise e
  end.

Definition remove_image (image_list : list A) (index : Z) : result (list A) :=
  if (0 <=? index) && (index <? Z.of_nat (length image_list))
  then pop image_list index
  else Ret image_list.

(** [l'] is [l] with the elements at positions [i] and [j] exchanged. *)
Definition swapped (l l' : list A) (i j : nat) : Prop :=
  length l' = length l /\
  l' !! i = l !! j /\ l' !! j = l !! i /\
  forall k, k <> i -> k <> j -> l' !! k = l !! k.

(** [l'] is [l] without its element at position [i]. *)
Definition removed (l l' : list A) (i : nat) : Prop :=
  S (length l') = length l /\
  (forall k, (k < i)%nat -> l' !! k = l !! k) /\
  (forall k, (i <= k)%nat -> l' !! k = l !! S k).

End Ops.
End PageSequence.

(** ** Arrays, the store and the pipeline monad ([processing.py]) *)

Abbreviation point := (Z * Z)%type (only parsing).          (* (x, y) *)
Abbreviation contour := (list (Z * Z)) (only parsing).
Abbreviation matrix := (list (list Q)) (only parsing).

(** numpy arrays of the three kinds the pipeline handles. Samples of an
    image are uint8 values; the rows of a point array are integer pixel
    coordinates (int32 as detected, float32 once ordered: float32 holds
    every integer of magnitude up to 2^24 exactly, so the coordinates are
    kept as integers). *)
Inductive ndarray :=
| Arr2 (a : list (list Z))            (* shape (h, w) *)
| Arr3 (a : list (list (list Z)))     (* shape (h, w, c) *)
| Pts (p : list point).               (* shape (n, 2) *)

(** A PIL image, as its decoded raster. *)
Inductive Image := PIL (data : ndarray).

Inductive notice :=
| st_success (msg : string)
| st_warning (msg : string)
| st_info (msg : string).

Abbreviation ref := nat (only parsing).

(** The store: the arrays allocated so far, addressed by position, and the
    status notifications emitted so far. *)
Record state := State { heap : list ndarray; log : list notice }.

Definition M (A : Type) : Type := state -> result A * state.

Definition ret {A} (a : A) : M A := fun s => (Ret a, s).

Definition raise {A} (e : exn) : M A := fun s => (Raise e, s).

Definition bind {A B} (m : M A) (k : A -> M B) : M B :=
  fun s =>
    match m s with
    | (Ret a, s') => k a s'
    | (Raise e, s') => (Raise e, s')
    end.

(** [try: m except Exception as e: h e] *)
Definition try_except {A} (m : M A) (h : exn -> M A) : M A :=
  fun s =>
    match m s with
    | (Ret a, s') => (Ret a, s')
    | (Raise e, s') => h e s'
    end.

#[global] Instance M_ret : MRet M := @ret.
#[global] Instance M_bind : MBind M := fun A B k m => bind m k.

Definition lift {A} (r : result A) : M A := fun s => (r, s).

Definition alloc (v : ndarray) : M ref :=
  fun s => (Ret (length (heap s)), State (heap s ++ [v]) (log s)).

Definition load (r : ref) : M ndarray :=
  fun s =>
    match heap s !! r with
    | Some v => (Ret v, s)
    | None => (Raise TypeError, s)
    end.

Definition notify (n : notice) : M unit :=
  fun s => (Ret tt, State (heap s) (log s ++ [n])).

(** ** numpy *)

Definition width {A} (rows : list (list A)) : nat :=
  match rows with
  | r :: _ => length r
  | [] => 0%nat
  end.

(** [a.shape[:2]] *)
Definition shape2 (a : ndarray) : nat * nat :=
  match a with
  | Arr2 g => (length g, width g)
  | Arr3 c => (length c, width c)
  | Pts p => (length p, 2%nat)
  end.

(** [len(a.shape)] *)
Definition ndim (a : ndarray) : nat :=
  match a with
  | Arr3 _ => 3%nat
  | _ => 2%nat
  end.

(** Two's-complement wrap-around of a signed [w]-bit integer. *)
Definition wrap (w : Z) (z : Z) : Z := (z + 2 ^ (w - 1)) mod 2 ^ w - 2 ^ (w - 1).

(** [np.zeros((4, 2))] *)
Definition np_zeros_4_2 : M ref := alloc (Pts [(0, 0); (0, 0); (0, 0); (0, 0)]).

Definition load_points (r : ref) : M (list point) :=
  a ← load r;
  match a with
  | Pts p => ret p
  | _ => raise TypeError
  end.

(** [a.sum(axis=1)] on an (n, 2) int32 array: the sums are accumulated in
    the platform integer (int64). *)
Definition sum_axis1 (p : list point) : list Z :=
  map (fun q : point => wrap 64 (fst q + snd q)) p.

(** [np.diff(a, axis=1)] on an (n, 2) int32 array: second column minus
    first column, in int32. *)
Definition diff_axis1 (p : list point) : list Z :=
  map (fun q : point => wrap 32 (snd q - fst q)) p.

(** Index of the first occurrence of the least element, with that element. *)
Fixpoint argmin_from (i : nat) (best : nat * Z) (l : list Z) : nat * Z :=
  match l with
  | [] => best
  | x :: l' => argmin_from (S i) (if x <? snd best then (i, x) else best) l'
  end.

Fixpoint argmax_from (i : nat) (best : nat * Z) (l : list Z) : nat * Z :=
  match l with
  | [] => best
  | x :: l' => argmax_from (S i) (if snd best <? x then (i, x) else best) l'
  end.

Definition first_argmin (l : list Z) : nat :=
  match l with
  | [] => 0%nat
  | x :: l' => fst (argmin_from 1 (0%nat, x) l')
  end.

Definition first_argmax (l : list Z) : nat :=
  match l with
  | [] => 0%nat
  | x :: l' => fst (argmax_from 1 (0%nat, x) l')
  end.

Definition np_argmin (l : list Z) : M nat :=
  match l with
  | [] => raise (ValueError "attempt to get argmin of an empty sequence")
  | _ => ret (first_argmin l)
  end.

Definition np_argmax (l : list Z) : M nat :=
  match l with
  | [] => raise (ValueError "attempt to get argmax of an empty sequence")
  | _ => ret (first_argmax l)
  end.

(** [a[i]] : row [i] of a point array. *)
Definition row (p : list point) (i : nat) : M point :=
  match p !! i with
  | Some q => ret q
  | None => raise IndexError
  end.

(** [a[i] = q] : row [i] of the point array at [r] is overwritten in place. *)
Definition store_row (r : ref) (i : nat) (q : point) : M unit :=
  fun s =>
    match heap s !! r with
    | Some (Pts p) =>
      if decide (i < length p)%nat
      then (Ret tt, State (<[r := Pts (<[i := q]> p)]> (heap s)) (log s))
      else (Raise IndexError, s)
    | _ => (Raise TypeError, s)
    end.

(** [len(a)] *)
Definition len (r : ref) : M nat :=
  a ← load r; ret (fst (shape2 a)).

(** [np.ones((h, w), np.uint8)] *)
Definition np_ones (h w : nat) : list (list Z) := replicate h (replicate w 1).

Definition Qltb (a b : Q) : bool := negb (Qle_bool b a).

Definition same_shape {A B} (a : list (list A)) (b : list (list B)) : bool :=
  (length a =? length b)%nat &&
  forallb (fun ab : list A * list B => (length (fst ab) =? length (snd ab))%nat) (zip a b).

(** [gray > thresh], elementwise, for arrays of one shape (scikit-image
    returns a threshold array of the shape of its input; other shapes are
    refused here instead of broadcast). *)
Definition np_greater (gray : ref) (thresh : list (list Q)) : M (list (list bool)) :=
  a ← load gray;
  match a with
  | Arr2 g =>
    if same_shape g thresh
    then ret (zip_with (zip_with (fun (v : Z) (t : Q) => Qltb t (inject_Z v))) g thresh)
    else raise (ValueError "operands could not be broadcast together")
  | _ => raise TypeError
  end.

(** [img_as_ubyte] of a boolean array: True is 255, False is 0. *)
Definition img_as_ubyte (binary : list (list bool)) : M ref :=
  alloc (Arr2 (map (map (fun b : bool => if b then 255 else 0)) binary)).

(** [k - a] for a uint8 image, in uint8 arithmetic. *)
Definition np_rsub (k : Z) (r : ref) : M ref :=
  a ← load r;
  match a with
  | Arr2 g => alloc (Arr2 (map (map (fun v => (k - v) mod 256)) g))
  | Arr3 c => alloc (Arr3 (map (map (map (fun v => (k - v) mod 256))) c))
  | Pts _ => raise TypeError
  end.

(** [np.array(image)] and [Image.fromarray(a)] *)
Definition np_array (image : Image) : M ref :=
  match image with PIL data => alloc data end.

Definition Image_fromarray (r : ref) : M Image :=
  a ← load r; ret (PIL a).

(** ** OpenCV and scikit-image *)

(** The outcome of a library primitive: a value, or a failure inside the
    library (reported to Python as an exception). *)
Inductive lib (A : Type) :=
| Ok (a : A)
| Err (code : nat).
Arguments Ok {A} a.
Arguments Err {A} code.

Inductive conversion := COLOR_BGR2GRAY | COLOR_RGB2BGR.
Inductive retrieval := RETR_LIST.
Inductive approximation := CHAIN_APPROX_SIMPLE.

(** The primitives whose results the program only passes along. *)
Class CV2 := {
  (* luminance of one 8-bit (b, g, r) pixel *)
  gray_of_bgr : Z -> Z -> Z -> Z;
  (* GaussianBlur(src, ksize, sigmaX) *)
  GaussianBlur : list (list Z) -> nat * nat -> Q -> lib (list (list Z));
  (* Canny(image, threshold1, threshold2) *)
  Canny : list (list Z) -> Z -> Z -> lib (list (list Z));
  (* findContours(image, mode, method) *)
  findContours : list (list Z) -> retrieval -> approximation -> lib (list contour);
  (* contourArea(contour) *)
  contourArea : contour -> lib Q;
  (* arcLength(curve, closed) *)
  arcLength : contour -> bool -> lib Q;
  (* approxPolyDP(curve, epsilon, closed) *)
  approxPolyDP : contour -> Q -> bool -> lib contour;
  (* getPerspectiveTransform(src, dst) *)
  getPerspectiveTransform : list point -> list point -> lib matrix;
  (* warpPerspective(src, M, dsize) *)
  warpPerspective : ndarray -> matrix -> Z * Z -> lib ndarray;
  (* skimage.filters.threshold_sauvola(image, window_size) *)
  threshold_sauvola : list (list Z) -> nat -> lib (list (list Q))
}.

Definition call {A} (x : lib A) : M A :=
  match x with
  | Ok a => ret a
  | Err code => raise (LibraryError code)
  end.

(** Number of channels of an (h, w, c) array; 0 when it has no pixel. *)
Definition channels (c : list (list (list Z))) : nat :=
  match c with
  | (px :: _) :: _ => length px
  | _ => 0%nat
  end.

Definition swap_rb (px : list Z) : list Z :=
  match px with
  | r :: g :: b :: _ => [b; g; r]
  | _ => px
  end.

Definition luma `{CV2} (px : list Z) : Z :=
  match px with
  | b :: g :: r :: _ => gray_of_bgr b g r
  | _ => 0
  end.

(** [cv2.cvtColor(src, code)] for the two conversions used: both need a
    non-empty source of 3 or 4 channels. *)
Definition cvtColor `{CV2} (a : ndarray) (code : conversion) : result ndarray :=
  match a with
  | Arr3 c =>
    if (channels c =? 3)%nat || (channels c =? 4)%nat
    then match code with
         | COLOR_BGR2GRAY => Ret (Arr2 (map (map luma) c))
         | COLOR_RGB2BGR => Ret (Arr3 (map (map swap_rb) c))
         end
    else Raise (cv2_error "Invalid number of channels in input image")
  | _ => Raise (cv2_error "Invalid number of channels in input image")
  end.

Definition cv2_cvtColor `{CV2} (src : ref) (code : conversion) : M ref :=
  a ← load src;
  b ← lift (cvtColor a code);
  alloc b.

Definition load_gray (r : ref) : M (list (list Z)) :=
  a ← load r;
  match a with
  | Arr2 g => ret g
  | _ => raise TypeError
  end.

Definition cv2_GaussianBlur `{CV2} (src : ref) (ksize : nat * nat) (sigmaX : Q) : M ref :=
  g ← load_gray src;
  b ← call (GaussianBlur g ksize sigmaX);
  alloc (Arr2 b).

Definition cv2_Canny `{CV2} (image : ref) (threshold1 threshold2 : Z) : M ref :=
  g ← load_gray image;
  e ← call (Canny g threshold1 threshold2);
  alloc (Arr2 e).

(** The contours are never updated and never leave the detector: they are
    bound as values. *)
Definition cv2_findContours `{CV2} (image : ref) (mode : retrieval)
    (method : approximation) : M (list contour) :=
  g ← load_gray image;
  call (findContours g mode method).

Definition cv2_approxPolyDP `{CV2} (curve : contour) (epsilon : Q) (closed : bool) : M ref :=
  p ← call (approxPolyDP curve epsilon closed);
  alloc (Pts p).

Definition cv2_getPerspectiveTransform `{CV2} (src dst : ref) : M matrix :=
  s ← load_points src;
  d ← load_points dst;
  call (getPerspectiveTransform s d).

Definition cv2_warpPerspective `{CV2} (src : ref) (m : matrix) (dsize : Z * Z) : M ref :=
  a ← load src;
  b ← call (warpPerspective a m dsize);
  alloc b.

Definition skimage_threshold_sauvola `{CV2} (image : ref) (window_size : nat)
    : M (list (list Q)) :=
  g ← load_gray image;
  call (threshold_sauvola g window_size).

(** *** Morphology

    [cv2.erode] and [cv2.dilate] with their default arguments: the anchor
    is the kernel centre, one iteration, and a constant border that never
    wins the minimum (erosion) or the maximum (dilation). *)

Definition get2 {A} (a : list (list A)) (y x : Z) : option A :=
  if (0 <=? y) && (0 <=? x)
  then match a !! Z.to_nat y with
       | Some r => r !! Z.to_nat x
       | None => None
       end
  else None.

(** Offsets (dy, dx), relative to the anchor, of the non-zero kernel elements. *)
Definition kernel_offsets (kernel : list (list Z)) : list (Z * Z) :=
  let ay := Z.of_nat (length kernel) / 2 in
  let ax := Z.of_nat (width kernel) / 2 in
  concat (imap (fun ky r =>
    concat (imap (fun kx e =>
      if e =? 0 then [] else [(Z.of_nat ky - ay, Z.of_nat kx - ax)]) r)) kernel).

Definition morph_pixel (op : Z -> Z -> Z) (border : Z) (src : list (list Z))
    (offsets : list (Z * Z)) (y x : nat) : Z :=
  foldr (fun (d : Z * Z) acc =>
           match get2 src (Z.of_nat y + fst d) (Z.of_nat x + snd d) with
           | Some v => op v acc
           | None => acc
           end) border offsets.

Definition morph (op : Z -> Z -> Z) (border : Z) (src kernel : list (list Z))
    : list (list Z) :=
  imap (fun y r => imap (fun x _ => morph_pixel op border src (kernel_offsets kernel) y x) r) src.

Definition erode (src kernel : list (list Z)) : list (list Z) := morph Z.min 255 src kernel.

Definition dilate (src kernel : list (list Z)) : list (list Z) := morph Z.max 0 src kernel.

(** The program erodes and dilates single-channel images only. *)
Definition cv2_erode (src : ref) (kernel : list (list Z)) : M ref :=
  g ← load_gray src;
  alloc (Arr2 (erode g kernel)).

Definition cv2_dilate (src : ref) (kernel : list (list Z)) : M ref :=
  g ← load_gray src;
  alloc (Arr2 (dilate g kernel)).

(** ** Corner Detector *)

(** [sorted(l, key=key, reverse=True)]: the key of every element is
    computed first, in list order; the sort is stable, so elements of
    equal key keep their order. *)
Fixpoint insert_desc {A} (x : Q * A) (l : list (Q * A)) : list (Q * A) :=
  match l with
  | [] => [x]
  | y :: l' => if Qltb (fst x) (fst y) then y :: insert_desc x l' else x :: y :: l'
  end.

Definition sort_desc {A} (l : list (Q * A)) : list (Q * A) := foldr insert_desc [] l.

Fixpoint mapM {A B} (f : A -> M B) (l : list A) : M (list B) :=
  match l with
  | [] => ret []
  | a :: l' => b ← f a; bs ← mapM f l'; ret (b :: bs)
  end.

Definition sorted_reverse {A} (key : A -> M Q) (l : list A) : M (list A) :=
  keys ← mapM key l;
  ret (map snd (sort_desc (zip keys l))).

(** The loop [for c in contours: ...] of [find_document_corners]. *)
Fixpoint for_contours `{CV2} (minArea : Q) (contours : list contour) : M (option ref) :=
  match contours with
  | [] => ret None
  | c :: rest =>
    contour_area ← call (contourArea c);
    if Qltb contour_area minArea then for_contours minArea rest
    else
      peri ← call (arcLength c true);
      if Qltb peri (inject_Z 100) then for_contours minArea rest
      else
        approx ← cv2_approxPolyDP c ((2 # 100) * peri)%Q true;
        n ← len approx;
        (* approx.reshape(4, 2) is a view of approx *)
        if (n =? 4)%nat then ret (Some approx) else for_contours minArea rest
  end.

Definition find_document_corners `{CV2} (img : ref) : M (option ref) :=
  a ← load img;
  let '(height, width) := shape2 a in
  let ImageArea := Z.of_nat height * Z.of_nat width in
  let minArea := (inject_Z ImageArea * (1 # 10))%Q in
  gray ← cv2_cvtColor img COLOR_BGR2GRAY;
  blurred ← cv2_GaussianBlur gray (5%nat, 5%nat) 0;
  edged ← cv2_Canny blurred 70 150;
  contours ← cv2_findContours edged RETR_LIST CHAIN_APPROX_SIMPLE;
  contours ← sorted_reverse (fun c => call (contourArea c)) contours;
  for_contours minArea (take 6 contours).

(** ** Perspective Rectifier *)

(** [int(np.sqrt((p[0] - q[0]) ** 2 + (p[1] - q[1]) ** 2))]: the integer
    part of the Euclidean distance. The program computes it in float32,
    which is exact for edges below 2896 pixels and may round a longer edge
    up to the next integer; for coordinates below 2^24 the comparison with
    50 is the exact one in every case. *)
Definition edge_length (p q : point) : Z :=
  Z.sqrt ((fst p - fst q) ^ 2 + (snd p - snd q) ^ 2).

Definition too_small : string := "Calculated dimensions too small".

Definition fix_perspective `{CV2} (img corners : ref) : M ref :=
  ordered_corners ← np_zeros_4_2;
  cs ← load_points corners;
  let corner_sums := sum_axis1 cs in
  i ← np_argmin corner_sums; q ← row cs i; store_row ordered_corners 0 q;;
  i ← np_argmax corner_sums; q ← row cs i; store_row ordered_corners 2 q;;
  let corner_diffs := diff_axis1 cs in
  i ← np_argmin corner_diffs; q ← row cs i; store_row ordered_corners 1 q;;
  i ← np_argmax corner_diffs; q ← row cs i; store_row ordered_corners 3 q;;
  oc ← load_points ordered_corners;
  match oc with
  | [top_left; top_right; bottom_right; bottom_left] =>
    let width1 := edge_length bottom_right bottom_left in
    let width2 := edge_length top_right top_left in
    let max_width := Z.max width1 width2 in
    let height1 := edge_length top_right bottom_right in
    let height2 := edge_length top_left bottom_left in
    let max_height := Z.max height1 height2 in
    if (max_width <? 50) || (max_height <? 50)
    then raise (ValueError too_small)
    else
      destination_corners ← alloc (Pts [(0, 0); (max_width - 1, 0);
                                        (max_width - 1, max_height - 1);
                                        (0, max_height - 1)]);
      transform_matrix ← cv2_getPerspectiveTransform ordered_corners destination_corners;
      corrected_image ← cv2_warpPerspective img transform_matrix (max_width, max_height);
      ret corrected_image
  | _ => raise (ValueError "not enough values to unpack")
  end.

(** ** Page Cleaner *)

Definition clean_up_image `{CV2} (image : ref) : M ref :=
  a ← load image;
  gray ← (if (ndim a =? 3)%nat then cv2_cvtColor image COLOR_BGR2GRAY else ret image);
  thresh ← skimage_threshold_sauvola gray 25;
  binary ← np_greater gray thresh;
  output ← img_as_ubyte binary;
  inverse ← np_rsub 255 output;
  erode ← cv2_erode inverse (np_ones 2 2);
  dilate ← cv2_dilate erode (np_ones 2 2);
  clean_image ← np_rsub 255 dilate;
  ret clean_image.

(** ** Pipeline Orchestrator *)

Definition process_image `{CV2} (image : Image) : M Image :=
  arr ← np_array image;
  img ← cv2_cvtColor arr COLOR_RGB2BGR;
  corrected_image ←
    try_except
      (corners ← find_document_corners img;
       match corners with
       | Some corners =>
         try_except
           (corrected_image ← fix_perspective img corners;
            notify (st_success "Document detected and perspective corrected!");;
            ret corrected_image)
           (fun e =>
            notify (st_warning
              "Document detected but perspective correction failed - using original image");;
            ret img)
       | None =>
         notify (st_info "No suitable document edges detected - using original image");;
         ret img
       end)
      (fun e =>
       notify (st_warning "Document detection failed - using original image");;
       ret img);
  final_image ←
    try_except
      (clean_up_image corrected_image)
      (fun e =>
       notify (st_warning "Advanced cleaning failed - using basic processing");;
       a ← load corrected_image;
       if (ndim a =? 3)%nat
       then cv2_cvtColor corrected_image COLOR_BGR2GRAY
       else ret corrected_image);
  pil_image ← Image_fromarray final_image;
  ret pil_image.

(** ** A concrete instance of the primitives

    A small stand-in for the libraries, used to run the pipeline on
    concrete inputs: blurring and edge detection return their input, the
    contours found are a three-pixel speck and the image frame, areas come
    from the shoelace formula, polygons are approximated by themselves,
    and a warp returns a black raster of the requested size. *)

Module Fixture.

Definition frame (g : list (list Z)) : contour :=
  let w := Z.of_nat (width g) in
  let h := Z.of_nat (length g) in
  [(0, 0); (w - 1, 0); (w - 1, h - 1); (0, h - 1)].

Definition speck : contour := [(0, 0); (1, 0); (0, 1)].

Fixpoint shoelace (first prev : point) (c : contour) : Z :=
  match c with
  | [] => fst prev * snd first - fst first * snd prev
  | q :: c' => (fst prev * snd q - fst q * snd prev) + shoelace first q c'
  end.

Definition area (c : contour) : Q :=
  match c with
  | [] => 0
  | p :: c' => (Z.abs (shoelace p p c') # 2)
  end.

Fixpoint path_length (prev : point) (c : contour) : Z :=
  match c with
  | [] => 0
  | q :: c' => edge_length prev q + path_length q c'
  end.

Definition perimeter (c : contour) (closed : bool) : Q :=
  match c with
  | [] => 0
  | p :: c' =>
    inject_Z (path_length p c' + (if closed then edge_length (List.last c' p) p else 0))
  end.

Definition blank (a : ndarray) (dsize : Z * Z) : lib ndarray :=
  let w := Z.to_nat (fst dsize) in
  let h := Z.to_nat (snd dsize) in
  if (0 <? fst dsize) && (0 <? snd dsize)
  then match a with
       | Arr2 _ => Ok (Arr2 (replicate h (replicate w 0)))
       | Arr3 c => Ok (Arr3 (replicate h (replicate w (replicate (channels c) 0))))
       | Pts _ => Err 1
       end
  else Err 2.

Definition cv : CV2 := {|
  gray_of_bgr b g r := (r * 4899 + g * 9617 + b * 1868 + 8192) / 16384;
  GaussianBlur g _ _ := Ok g;
  Canny g _ _ := Ok g;
  findContours g _ _ := Ok [speck; frame g];
  contourArea c := Ok (area c);
  arcLength c closed := Ok (perimeter c closed);
  approxPolyDP c _ _ := Ok c;
  getPerspectiveTransform _ _ := Ok [[1; 0; 0]; [0; 1; 0]; [0; 0; 1]]%Q;
  warpPerspective a _ dsize := blank a dsize;
  threshold_sauvola g _ := Ok (map (map (fun _ => 255 # 2)) g)
|}.

(** A white colour raster of the given size, and a store holding the given
    arrays. *)
Definition white_pixels (h w : nat) : list (list (list Z)) :=
  replicate h (replicate w [255; 255; 255]).

Definition white (h w : nat) : ndarray := Arr3 (white_pixels h w).

Definition init (arrays : list ndarray) : state := State arrays [].

(** Corner sets: an upright square, the same square standing on a corner
    (listed clockwise from the top, and in the opposite order), and four
    points of one diagonal line. *)
Definition square : list point := [(0, 0); (100, 0); (100, 100); (0, 100)].

Definition diamond : list point := [(50, 0); (100, 50); (50, 100); (0, 50)].


(** A small grayscale page: dark text pixels on a light background. *)
Definition page : ndarray := Arr2 [[0; 200; 0]; [200; 200; 200]].

(** A store holding a small colour image at 0 and a corner set at 1. *)
Definition with_corners (cs : list point) : state := init [white 2 2; Pts cs].

End Fixture.

(** ** Vocabulary of the properties *)

(** The array [ordered_corners] that [fix_perspective] fills in place,
    row by row, as a function of the rows of [corners]. *)
Definition nth_point (cs : list point) (i : nat) : point := default (0, 0) (cs !! i).

Definition order_corners (cs : list point) : list point :=
  [nth_point cs (first_argmin (sum_axis1 cs));
   nth_point cs (first_argmin (diff_axis1 cs));
   nth_point cs (first_argmax (sum_axis1 cs));
   nth_point cs (first_argmax (diff_axis1 cs))].

(** [(max_width, max_height)] of [fix_perspective], from the ordered corners. *)
Definition target_size (oc : list point) : Z * Z :=
  match oc with
  | [top_left; top_right; bottom_right; bottom_left] =>
    (Z.max (edge_length bottom_right bottom_left) (edge_length top_right top_left),
     Z.max (edge_length top_right bottom_right) (edge_length top_left bottom_left))
  | _ => (0, 0)
  end.

(** The rest of [fix_perspective] once [ordered_corners] is filled. *)
Definition rectify `{CV2} (img ordered_corners : ref) (size : Z * Z) : M ref :=
  let '(max_width, max_height) := size in
  if (max_width <? 50) || (max_height <? 50)
  then raise (ValueError too_small)
  else
    destination_corners ← alloc (Pts [(0, 0); (max_width - 1, 0);
                                      (max_width - 1, max_height - 1);
                                      (0, max_height - 1)]);
    transform_matrix ← cv2_getPerspectiveTransform ordered_corners destination_corners;
    corrected_image ← cv2_warpPerspective img transform_matrix (max_width, max_height);
    ret corrected_image.

(** The destination rectangle of the warp. *)
Definition destination (size : Z * Z) : list point :=
  [(0, 0); (fst size - 1, 0); (fst size - 1, snd size - 1); (0, snd size - 1)].

(** The outcome of [fix_perspective] as a function of the image [a] and of
    the rows [cs] of [corners]. *)
Definition rectified `{CV2} (a : ndarray) (cs : list point) : result ndarray :=
  let oc := order_corners cs in
  let size := target_size oc in
  if (fst size <? 50) || (snd size <? 50)
  then Raise (ValueError too_small)
  else
    match getPerspectiveTransform oc (destination size) with
    | Err code => Raise (LibraryError code)
    | Ok m =>
      match warpPerspective a m size with
      | Err code => Raise (LibraryError code)
      | Ok b => Ret b
      end
    end.

(** Corner points in pixel space: non-negative int32 coordinates. *)
Definition pixel_coordinates (cs : list point) : Prop :=
  Forall (fun q : point => 0 <= fst q < 2 ^ 31 /\ 0 <= snd q < 2 ^ 31) cs.

(** [p] is a point of [cs] of least, or of greatest, value of [f]. *)
Definition least (f : point -> Z) (cs : list point) (p : point) : Prop :=
  In p cs /\ forall q, In q cs -> f p <= f q.

Definition greatest (f : point -> Z) (cs : list point) (p : point) : Prop :=
  In p cs /\ forall q, In q cs -> f q <= f p.

(** At most one point of [cs] attains the least value of [f], and at most
    one the greatest. *)
Definition unique_extremes (f : point -> Z) (cs : list point) : Prop :=
  (forall p q, least f cs p -> least f cs q -> p = q) /\
  (forall p q, greatest f cs p -> greatest f cs q -> p = q).

(** x + y, the quantity [corners.sum(axis=1)] computes. *)
Definition coord_sum (q : point) : Z := fst q + snd q.

(** y - x, the quantity [np.diff(corners, axis=1)] computes. *)
Definition coord_diff (q : point) : Z := snd q - fst q.

(** The square of the Euclidean distance. *)
Definition sq_dist (p q : point) : Z := (fst p - fst q) ^ 2 + (snd p - snd q) ^ 2.


(** *** Corner Detector *)

Definition ok {A} (x : lib A) : Prop := exists a, x = Ok a.

(** Area, perimeter and polygon approximation of a contour, as the
    detector obtains them (closed curve, tolerance 2% of the perimeter). *)
Definition area_of `{CV2} (c : contour) : Q :=
  match contourArea c with Ok x => x | Err _ => 0 end.

Definition perimeter_of `{CV2} (c : contour) : Q :=
  match arcLength c true with Ok x => x | Err _ => 0 end.

Definition polygon_of `{CV2} (c : contour) : list point :=
  match approxPolyDP c ((2 # 100) * perimeter_of c)%Q true with
  | Ok p => p
  | Err _ => []
  end.

(** The three measurements of [c] succeed. *)
Definition measurable `{CV2} (c : contour) : Prop :=
  ok (contourArea c) /\ ok (arcLength c true) /\
  ok (approxPolyDP c ((2 # 100) * perimeter_of c)%Q true).

(** [minArea]: 10% of the image area. *)
Definition min_area (a : ndarray) : Q :=
  (inject_Z (Z.of_nat (fst (shape2 a)) * Z.of_nat (snd (shape2 a))) * (1 # 10))%Q.

(** A candidate the detector accepts. *)
Definition qualified `{CV2} (minArea : Q) (c : contour) : Prop :=
  (minArea <= area_of c)%Q /\ (inject_Z 100 <= perimeter_of c)%Q /\
  length (polygon_of c) = 4%nat.

(** Descending order of the sort keys, and of area. *)
Definition key_ge {A} (x y : Q * A) : Prop := (fst y <= fst x)%Q.

Definition area_ge `{CV2} (c d : contour) : Prop := (area_of d <= area_of c)%Q.

(** The contours in stable descending order of area, and the candidates
    examined: the first 6 of them. *)
Definition by_area `{CV2} (contours : list contour) : list contour :=
  map snd (sort_desc (zip (map area_of contours) contours)).

Definition candidates `{CV2} (contours : list contour) : list contour :=
  take 6 (by_area contours).

(** The detector's verdict on the candidates [l]: the first qualified
    candidate, every candidate before it being rejected, or none. *)
Inductive verdict `{CV2} (minArea : Q) (l : list contour) : option contour -> Prop :=
| accept pre c post :
    l = pre ++ c :: post ->
    Forall (fun d => ~ qualified minArea d) pre ->
    qualified minArea c ->
    verdict minArea l (Some c)
| reject :
    Forall (fun d => ~ qualified minArea d) l ->
    verdict minArea l None.

(** The value returned for a verdict: a reference to the polygon of the
    accepted contour, or [None]. *)
Definition found `{CV2} (h : list ndarray) (v : option contour) (res : option ref) : Prop :=
  match v, res with
  | Some c, Some r => h !! r = Some (Pts (polygon_of c))
  | None, None => True
  | _, _ => False
  end.

(** The edge map the contours are extracted from. *)
Definition edge_map `{CV2} (a : list (list (list Z))) (edged : list (list Z)) : Prop :=
  exists blurred,
    GaussianBlur (map (map luma) a) (5%nat, 5%nat) 0 = Ok blurred /\
    Canny blurred 70 150 = Ok edged.


(** *** Page Cleaner *)

(** [rows] has [h] rows of [w] elements each. *)
Definition rect {A} (h w : nat) (rows : list (list A)) : Prop :=
  length rows = h /\ Forall (fun r => length r = w) rows.

Definition eight_bit (v : Z) : Prop := 0 <= v < 256.

(** A well-formed input image: a non-empty raster of 8-bit samples,
    grayscale or of 3 channels. *)
Definition well_formed (a : ndarray) : Prop :=
  (0 < fst (shape2 a))%nat /\ (0 < snd (shape2 a))%nat /\
  match a with
  | Arr2 g => rect (length g) (width g) g /\ Forall (Forall eight_bit) g
  | Arr3 c =>
    rect (length c) (width c) c /\
    Forall (Forall (fun px => length px = 3%nat /\ Forall eight_bit px)) c
  | Pts _ => False
  end.

(** The grayscale raster the cleaner works on. *)
Definition gray_of `{CV2} (a : ndarray) : list (list Z) :=
  match a with
  | Arr2 g => g
  | Arr3 c => map (map luma) c
  | Pts _ => []
  end.

(** The cleaner's result as a function of the grayscale raster and of the
    threshold array. *)
Definition binarize (g : list (list Z)) (t : list (list Q)) : list (list Z) :=
  zip_with (zip_with (fun (v : Z) (th : Q) => if Qltb th (inject_Z v) then 255 else 0)) g t.

Definition invert (a : list (list Z)) : list (list Z) :=
  map (map (fun v => (255 - v) mod 256)) a.

Definition cleaned (g : list (list Z)) (t : list (list Q)) : list (list Z) :=
  invert (dilate (erode (invert (binarize g t)) (np_ones 2 2)) (np_ones 2 2)).

(** Every pixel of [a] satisfies [P]. *)
Definition pixels (P : Z -> Prop) (a : list (list Z)) : Prop :=
  forall y x v, get2 a y x = Some v -> P v.

Definition black_or_white (v : Z) : Prop := v = 0 \/ v = 255.

(** Pixelwise readings of the four steps, for rasters of one shape. *)
Definition binarized (g : list (list Z)) (t : list (list Q)) (b : list (list Z)) : Prop :=
  forall y x v th,
    get2 g y x = Some v -> get2 t y x = Some th ->
    ((th < inject_Z v)%Q -> get2 b y x = Some 255) /\
    (~ (th < inject_Z v)%Q -> get2 b y x = Some 0).

Definition inverse_of (a b : list (list Z)) : Prop :=
  forall y x v, get2 a y x = Some v -> get2 b y x = Some (255 - v).

(** The pixels under a 2x2 all-ones kernel anchored at its centre (1, 1):
    the pixel itself and its left, upper and upper-left neighbours. *)
Definition under_kernel (a : list (list Z)) (y x : Z) (v : Z) : Prop :=
  exists dy dx, (dy = 0 \/ dy = 1) /\ (dx = 0 \/ dx = 1) /\ get2 a (y - dy) (x - dx) = Some v.

(** [b] is the erosion of [a]: every pixel is the least of the pixels of
    [a] under the kernel (the border does not count). *)
Definition erosion_of (a b : list (list Z)) : Prop :=
  forall y x v, get2 a y x = Some v ->
    exists m, get2 b y x = Some m /\ under_kernel a y x m /\
              forall u, under_kernel a y x u -> m <= u.

(** [b] is the dilation of [a]: every pixel is the greatest of the pixels
    of [a] under the kernel. *)
Definition dilation_of (a b : list (list Z)) : Prop :=
  forall y x v, get2 a y x = Some v ->
    exists m, get2 b y x = Some m /\ under_kernel a y x m /\
              forall u, under_kernel a y x u -> u <= m.

(** [m] leaves every array whose reference satisfies [P] as it was. *)
Definition keeps {A} (P : ref -> Prop) (m : M A) : Prop :=
  forall s r v, P r -> heap s !! r = Some v -> heap (snd (m s)) !! r = Some v.

(** Every array of the store [s] is found unchanged in the store [s']. *)
Definition unchanged (s s' : state) : Prop :=
  forall r v, heap s !! r = Some v -> heap s' !! r = Some v.

(** *** Pipeline Orchestrator *)

(** Whenever [m] returns from a store satisfying [Pre], the value returned
    and the final store satisfy [Post]. *)
Definition ensures {A} (Pre : state -> Prop) (m : M A) (Post : A -> state -> Prop) : Prop :=
  forall s a s', Pre s -> m s = (Ret a, s') -> Post a s'.


(** The corners returned by the detector are an array of 4 points. *)
Definition four_points (res : option nat) (s : state) : Prop :=
  match res with
  | Some r => exists pts, heap s !! r = Some (Pts pts) /\ length pts = 4%nat
  | None => True
  end.



(** *** Status notifications *)




(** ** The application ([main.py])

    One run of the Streamlit script [main]: the widgets are inputs (the
    files held by the uploader, the buttons pressed), [st.session_state]
    is a record that survives the run, [st.rerun()] stops the run, and
    calls that only draw on the page leave no trace. *)

(** *** PDF assembly *)

Inductive app_error :=
| ZeroDivisionError
| AttributeError                 (* a key missing from st.session_state *)
| UnidentifiedImageError         (* Image.open on a file that is no image *)
| Python (e : exn).              (* an exception of the page list or of the pipeline *)

Inductive control :=
| Rerun                          (* st.rerun() *)
| Error (e : app_error).

Inductive outcome (A : Type) :=
| Done (a : A)
| Stop (c : control).
Arguments Done {A} a.
Arguments Stop {A} c.

(** What [drawImage] puts on a page: the image, its lower-left corner and
    its size, in points. *)
Record drawing := Drawing {
  picture : Image;
  x_position : Q;
  y_position : Q;
  scaled_width : Q;
  scaled_height : Q
}.

(** reportlab's [A4]: 210 mm by 297 mm, at 72 points to the inch. *)
Definition A4 : Q * Q := ((210 * 720 # 254), (297 * 720 # 254)).

(** [img.size]: (width, height). *)
Definition size (img : Image) : Z * Z :=
  match img with
  | PIL a => (Z.of_nat (snd (shape2 a)), Z.of_nat (fst (shape2 a)))
  end.

(** [a / n] for a float [a] and an int [n]. *)
Definition divide (a : Q) (n : Z) : outcome Q :=
  if n =? 0 then Stop (Error ZeroDivisionError) else Done (a / inject_Z n)%Q.

(** [min(a, b)]: [b] when it is smaller, else [a]. *)
Definition py_min (a b : Q) : Q := if Qltb b a then b else a.

(** The body of the loop of [create_pdf_from_images]. The PNG encoding of
    the image and the calls on the canvas are taken to succeed; what can
    stop the body is a division by a zero width or height. *)
Definition place (img : Image) : outcome drawing :=
  let '(img_width, img_height) := size img in
  let '(page_width, page_height) := A4 in
  match divide page_width img_width with
  | Stop c => Stop c
  | Done rw =>
    match divide page_height img_height with
    | Stop c => Stop c
    | Done rh =>
      let scale_factor := py_min rw rh in
      let scaled_width := (inject_Z img_width * scale_factor)%Q in
      let scaled_height := (inject_Z img_height * scale_factor)%Q in
      let x_position := ((page_width - scaled_width) / 2)%Q in
      let y_position := ((page_height - scaled_height) / 2)%Q in
      Done (Drawing img x_position y_position scaled_width scaled_height)
    end
  end.

(** The document written: one page per image, in order ([showPage] after
    every [drawImage]). *)
Fixpoint create_pdf_from_images (image_list : list Image) : outcome (list drawing) :=
  match image_list with
  | [] => Done []
  | img :: rest =>
    match place img with
    | Stop c => Stop c
    | Done page =>
      match create_pdf_from_images rest with
      | Stop c => Stop c
      | Done pages => Done (page :: pages)
      end
    end
  end.

(** *** Session state and one run of the script *)

Record session_state := Session {
  processed_images : option (list (Image * string));
  original_images : option (list (Image * string));
  pdf_data : option (list drawing)
}.

Record app_state := AppState { session : session_state; store : state }.

Definition App (A : Type) : Type := app_state -> outcome A * app_state.

#[global] Instance App_ret : MRet App := fun A a s => (Done a, s).
#[global] Instance App_bind : MBind App :=
  fun A B k m s =>
    match m s with
    | (Done a, s') => k a s'
    | (Stop c, s') => (Stop c, s')
    end.

Definition done {A} (a : A) : App A := fun s => (Done a, s).

Definition stop {A} (c : control) : App A := fun s => (Stop c, s).

Definition st_rerun : App unit := stop Rerun.

(** A computation of the image pipeline, run on the store. *)
Definition pipeline {A} (m : M A) : App A :=
  fun s =>
    match m (store s) with
    | (Ret a, st') => (Done a, AppState (session s) st')
    | (Raise e, st') => (Stop (Error (Python e)), AppState (session s) st')
    end.

Definition from_outcome {A} (x : outcome A) : App A := fun s => (x, s).

Definition get_session : App session_state := fun s => (Done (session s), s).

(** [st.session_state.processed_images] and [.original_images], read and
    assigned. *)
Definition get_processed : App (list (Image * string)) :=
  fun s =>
    match processed_images (session s) with
    | Some l => (Done l, s)
    | None => (Stop (Error AttributeError), s)
    end.

Definition get_original : App (list (Image * string)) :=
  fun s =>
    match original_images (session s) with
    | Some l => (Done l, s)
    | None => (Stop (Error AttributeError), s)
    end.

Definition set_processed (l : list (Image * string)) : App unit :=
  fun s =>
    (Done tt,
     AppState (Session (Some l) (original_images (session s)) (pdf_data (session s)))
              (store s)).

Definition set_original (l : list (Image * string)) : App unit :=
  fun s =>
    (Done tt,
     AppState (Session (processed_images (session s)) (Some l) (pdf_data (session s)))
              (store s)).

Definition set_pdf_data (d : option (list drawing)) : App unit :=
  fun s =>
    (Done tt,
     AppState (Session (processed_images (session s)) (original_images (session s)) d)
              (store s)).

(** A page-list operation applied to a list of the session, in place: the
    list is updated when the operation returns. *)
Definition on_processed (f : list (Image * string) -> result (list (Image * string)))
    : App unit :=
  l ← get_processed;
  match f l with
  | Ret l' => set_processed l'
  | Raise e => stop (Error (Python e))
  end.

Definition on_original (f : list (Image * string) -> result (list (Image * string)))
    : App unit :=
  l ← get_original;
  match f l with
  | Ret l' => set_original l'
  | Raise e => stop (Error (Python e))
  end.

(** A file held by the uploader: its name, its size in bytes, and the
    image [Image.open] decodes from it, if it is one. *)
Record uploaded_file := UploadedFile {
  name : string;
  file_size : Z;
  opened : option Image
}.

(** [image.resize((w, h), Image.LANCZOS)] *)
Class Pillow := {
  resize : Image -> Z * Z -> lib Image
}.

Inductive button :=
| move_up_ (i : nat)
| down_ (i : nat)
| remove_ (i : nat)
| Create_PDF
| Clear_All_Images.

Fixpoint for_each {A} (body : A -> App unit) (l : list A) : App unit :=
  match l with
  | [] => done tt
  | a :: l' => body a;; for_each body l'
  end.

(** The body of [for uploaded_file in uploaded_files]. *)
Definition upload `{CV2} `{Pillow} (uploaded_file : uploaded_file) : App unit :=
  originals ← get_original;
  let existing_names := map snd originals in
  if existsb (String.eqb (name uploaded_file)) existing_names then done tt
  else
    let file_size := file_size uploaded_file in
    original_image ← match opened uploaded_file with
                     | Some img => done img
                     | None => stop (Error UnidentifiedImageError)
                     end;
    let '(width, height) := size original_image in
    original_image ←
      (if 5 * 1024 * 1024 <? file_size
       then
         pipeline (notify (st_warning "Image is larger than 5MB, resizing..."));;
         match resize original_image (width / 2, height / 2) with
         | Ok img => done img
         | Err code => stop (Error (Python (LibraryError code)))
         end
       else done original_image);
    on_original (fun l => Ret (l ++ [(original_image, name uploaded_file)]));;
    processed_image ← pipeline (process_image original_image);
    on_processed (fun l => Ret (l ++ [(processed_image, name uploaded_file)])).

(** The body of [for i, (processed_img, filename) in enumerate(...)]. *)
Definition review (pressed : button -> bool) (i : nat) : App unit :=
  (if (0 <? i)%nat
   then
     if pressed (move_up_ i)
     then
       on_processed (fun l => PageSequence.move_image_up l (Z.of_nat i));;
       on_original (fun l => PageSequence.move_image_up l (Z.of_nat i));;
       st_rerun
     else done tt
   else done tt);;
  processed ← get_processed;
  (if Z.of_nat i <? Z.of_nat (length processed) - 1
   then
     if pressed (down_ i)
     then
       on_processed (fun l => PageSequence.move_image_down l (Z.of_nat i));;
       on_original (fun l => PageSequence.move_image_down l (Z.of_nat i));;
       st_rerun
     else done tt
   else done tt);;
  (if pressed (remove_ i)
   then
     on_processed (fun l => PageSequence.remove_image l (Z.of_nat i));;
     st_rerun;;
     on_original (fun l => PageSequence.remove_image l (Z.of_nat i));;
     st_rerun
   else done tt);;
  (* col3: original_img = st.session_state.original_images[i][0] *)
  originals ← get_original;
  match originals !! i with
  | Some original_img => done tt
  | None => stop (Error (Python IndexError))
  end.

Definition main `{CV2} `{Pillow} (uploaded_files : list uploaded_file)
    (pressed : button -> bool) : App unit :=
  s ← get_session;
  match processed_images s with Some _ => done tt | None => set_processed [] end;;
  s ← get_session;
  match original_images s with Some _ => done tt | None => set_original [] end;;
  for_each upload uploaded_files;;
  processed ← get_processed;
  match processed with
  | _ :: _ =>
    for_each (review pressed) (seq 0 (length processed));;
    (if pressed Create_PDF
     then
       processed ← get_processed;
       match processed with
       | _ :: _ =>
         let images_only := map fst processed in
         pdf ← from_outcome (create_pdf_from_images images_only);
         set_pdf_data (Some pdf);;
         pipeline (notify (st_success "PDF created successfully!"))
       | [] => done tt
       end
     else done tt);;
    (if pressed Clear_All_Images
     then
       set_processed [];;
       st_rerun;;
       set_original [];;
       st_rerun;;
       set_pdf_data None;;
       st_rerun
     else done tt)
  | [] => pipeline (notify (st_info "Upload some images to get started!"))
  end.

(** Concrete inputs for the application: a resize that keeps the top-left
    part of the raster. *)

Module AppFixture.

Definition crop (img : Image) (dsize : Z * Z) : lib Image :=
  let w := Z.to_nat (fst dsize) in
  let h := Z.to_nat (snd dsize) in
  match img with
  | PIL (Arr2 g) => Ok (PIL (Arr2 (map (take w) (take h g))))
  | PIL (Arr3 c) => Ok (PIL (Arr3 (map (take w) (take h c))))
  | PIL (Pts _) => Err 1
  end.

Definition pillow : Pillow := {| resize := crop |}.

Definition photo : Image := PIL (Fixture.white 2 3).

Definition scan : Image := PIL (Arr2 [[255; 255; 255]; [255; 255; 255]]).

Definition start (p o : list (Image * string)) : app_state :=
  AppState (Session (Some p) (Some o) None) (Fixture.init []).

Definition only (b : button) (b' : button) : bool :=
  match b, b' with
  | move_up_ i, move_up_ j | down_ i, down_ j | remove_ i, remove_ j => (i =? j)%nat
  | Create_PDF, Create_PDF | Clear_All_Images, Clear_All_Images => true
  | _, _ => false
  end.

(** Two scanned pages with their originals, and an uploader still holding
    the file of the first. *)
Definition two_pages : list (Image * string) :=
  [(scan, "a.png"%string); (scan, "b.png"%string)].

Definition held : list uploaded_file := [UploadedFile "a.png" 1024 (Some scan)].

End AppFixture.

(** *** Vocabulary for runs of the application *)

(** The two lists of the session, empty while the key is missing. *)
Definition pages (s : app_state) : list (Image * string) :=
  default [] (processed_images (session s)).

Definition originals (s : app_state) : list (Image * string) :=
  default [] (original_images (session s)).

(** Every page has an original at its position. *)
Definition backed (s : app_state) : Prop :=
  (length (pages s) <= length (originals s))%nat.

(** The files held by the uploader have all been taken up already. *)
Definition taken_up (files : list uploaded_file) (s : app_state) : Prop :=
  Forall (fun f => name f ∈ map snd (originals s)) files.

(** Exactly one button is pressed in the run. *)
Definition only_pressed (b : button) (pressed : button -> bool) : Prop :=
  forall b', pressed b' = true <-> b' = b.

(** The session with its two lists replaced. *)
Definition with_lists (p o : list (Image * string)) (s : app_state) : app_state :=
  AppState (Session (Some p) (Some o) (pdf_data (session s))) (store s).

(** From a state of [P], [m] ends normally in a state of [Q] or stops in a
    state of [E]. *)
Definition hoare {A} (P : app_state -> Prop) (m : App A)
    (Q : A -> app_state -> Prop) (E : control -> app_state -> Prop) : Prop :=
  forall s, P s ->
    match m s with
    | (Done a, s') => Q a s'
    | (Stop c, s') => E c s'
    end.

(** What a run may have done to the session of [s0]: both lists exist,
    the originals are those of [s0], reordered, with originals of uploaded
    files added, and the pages are still backed if they were. *)
Definition evolved (files : list uploaded_file) (s0 s : app_state) : Prop :=
  is_Some (processed_images (session s)) /\
  is_Some (original_images (session s)) /\
  (exists added,
     Permutation (originals s) (originals s0 ++ added) /\
     Forall (fun x => snd x ∈ map name files) added) /\
  (backed s0 -> backed s).

(** A state a run started in [s0] may be in: the session has evolved as
    above, and the PDF kept in it is the one of [s0] unless Create PDF is
    pressed. *)
Definition within_run (files : list uploaded_file) (pressed : button -> bool)
    (s0 s : app_state) : Prop :=
  evolved files s0 s /\
  (pressed Create_PDF = false -> pdf_data (session s) = pdf_data (session s0)).

(** * Properties *)

(** ** Page sequence *)

Section PageSequenceFacts.
Context {A : Type}.
Implicit Types (l : list A) (i j index : Z).
Import PageSequence.

Lemma py_index_in_range (n : nat) i :
  0 <= i < Z.of_nat n -> py_index n i = Ret (Z.to_nat i).
Proof.
  intros Hi. unfold py_index.
  destruct (Z.leb_spec 0 i), (Z.ltb_spec i (Z.of_nat n)); simpl; try lia.
  reflexivity.
Qed.

Lemma py_index_above (n : nat) i :
  Z.of_nat n <= i -> py_index n i = Raise IndexError.
Proof.
  intros Hi. unfold py_index.
  destruct (Z.leb_spec 0 i), (Z.ltb_spec i (Z.of_nat n)),
    (Z.leb_spec (- Z.of_nat n) i), (Z.ltb_spec i 0); simpl; try lia; reflexivity.
Qed.

Lemma getitem_in_range l i :
  0 <= i < Z.of_nat (length l) ->
  exists a, l !! Z.to_nat i = Some a /\ getitem l i = Ret a.
Proof.
  intros Hi. unfold getitem. rewrite py_index_in_range by assumption.
  destruct (lookup_lt_is_Some_2 l (Z.to_nat i)) as [a Ha]; [lia|].
  exists a. rewrite Ha. auto.
Qed.

Lemma swap_assign_in_range l i j :
  0 <= i < Z.of_nat (length l) -> 0 <= j < Z.of_nat (length l) -> i <> j ->
  exists l', swap_assign l i j = Ret l' /\ swapped l l' (Z.to_nat i) (Z.to_nat j).
Proof.
  intros Hi Hj Hij. unfold swap_assign.
  destruct (getitem_in_range l j Hj) as (vj & Hvj & ->).
  destruct (getitem_in_range l i Hi) as (vi & Hvi & ->).
  unfold setitem. rewrite py_index_in_range by assumption.
  rewrite length_insert, py_index_in_range by assumption.
  eexists; split; [reflexivity|].
  assert (Z.to_nat i <> Z.to_nat j) by lia.
  repeat split.
  - now rewrite !length_insert.
  - rewrite list_lookup_insert_ne by auto.
    rewrite list_lookup_insert_eq by lia. congruence.
  - rewrite list_lookup_insert_eq by (rewrite length_insert; lia). congruence.
  - intros k Hki Hkj. now rewrite !list_lookup_insert_ne by auto.
Qed.

Lemma removed_delete l (k : nat) :
  (k < length l)%nat -> removed l (delete k l) k.
Proof.
  intros Hk. repeat split.
  - rewrite length_delete by (apply lookup_lt_is_Some_2; lia). lia.
  - intros n Hn. now apply list_lookup_delete_lt.
  - intros n Hn. now apply list_lookup_delete_ge.
Qed.


Lemma move_image_up_swaps l index :
  0 < index < Z.of_nat (length l) ->
  exists l', move_image_up l index = Ret l' /\
             swapped l l' (Z.to_nat index) (Z.to_nat (index - 1)).
Proof.
  intros Hi. unfold move_image_up.
  destruct (Z.ltb_spec 0 index); [|lia].
  apply swap_assign_in_range; lia.
Qed.

Lemma getitem_raise l i e : getitem l i = Raise e -> e = IndexError.
Proof.
  unfold getitem, py_index.
  repeat match goal with
         | |- context [if ?b then _ else _] => destruct b
         | |- context [match ?o with Some _ => _ | None => _ end] => destruct o
         end; congruence.
Qed.

(** Beyond the end of the list the swap of [move_image_up] is attempted and
    its subscript fails. *)
Lemma move_image_up_raises l index :
  0 < index -> Z.of_nat (length l) <= index -> move_image_up l index = Raise IndexError.
Proof.
  intros H0 Hi. unfold move_image_up.
  destruct (Z.ltb_spec 0 index); [|lia].
  unfold swap_assign.
  destruct (getitem l (index - 1)) as [a|e] eqn:E.
  - unfold getitem at 1. now rewrite py_index_above.
  - now rewrite (getitem_raise _ _ _ E).
Qed.


Lemma move_image_down_swaps l index :
  0 <= index < Z.of_nat (length l) - 1 ->
  exists l', move_image_down l index = Ret l' /\
             swapped l l' (Z.to_nat index) (Z.to_nat (index + 1)).
Proof.
  intros Hi. unfold move_image_down.
  destruct (Z.ltb_spec index (Z.of_nat (length l) - 1)); [|lia].
  apply swap_assign_in_range; lia.
Qed.

Lemma remove_image_unchanged l index :
  index < 0 \/ Z.of_nat (length l) <= index -> remove_image l index = Ret l.
Proof.
  intros Hi. unfold remove_image.
  destruct (Z.leb_spec 0 index), (Z.ltb_spec index (Z.of_nat (length l)));
    simpl; try lia; reflexivity.
Qed.

Lemma remove_image_removes l index :
  0 <= index < Z.of_nat (length l) ->
  remove_image l index = Ret (delete (Z.to_nat index) l) /\
  removed l (delete (Z.to_nat index) l) (Z.to_nat index).
Proof.
  intros Hi. unfold remove_image.
  destruct (Z.leb_spec 0 index), (Z.ltb_spec index (Z.of_nat (length l)));
    simpl; try lia.
  unfold pop. rewrite py_index_in_range by assumption.
  split; [reflexivity|]. apply removed_delete. lia.
Qed.


End PageSequenceFacts.



(** ** The store: what a computation leaves unchanged *)

Section Frame.
Context `{cv : CV2}.

(** Running a sequence: the first step returns or raises. *)
Lemma run_bind {A B} (m : M A) (k : A -> M B) s a s' :
  m s = (Ret a, s') -> (m ≫= k) s = k a s'.
Proof. intros E. unfold mbind, M_bind, bind. now rewrite E. Qed.

Lemma run_bind_raise {A B} (m : M A) (k : A -> M B) s e s' :
  m s = (Raise e, s') -> (m ≫= k) s = (Raise e, s').
Proof. intros E. unfold mbind, M_bind, bind. now rewrite E. Qed.

Lemma run_alloc {B} v (k : ref -> M B) s :
  (alloc v ≫= k) s = k (length (heap s)) (State (heap s ++ [v]) (log s)).
Proof. reflexivity. Qed.

Lemma run_load {B} r v (k : ndarray -> M B) s :
  heap s !! r = Some v -> (load r ≫= k) s = k v s.
Proof. intros E. apply run_bind. unfold load. now rewrite E. Qed.

Lemma run_ret {A B} (a : A) (k : A -> M B) s : (mret a ≫= k) s = k a s.
Proof. reflexivity. Qed.

Lemma keeps_mono {A} (P Q : ref -> Prop) (m : M A) :
  (forall r, Q r -> P r) -> keeps P m -> keeps Q m.
Proof. intros HPQ Hm s r v Hr. apply Hm. auto. Qed.

Lemma keeps_ret {A} P (a : A) : keeps P (mret a).
Proof. intros s r v _ Hv. exact Hv. Qed.

Lemma keeps_raise {A} P e : keeps P (raise e : M A).
Proof. intros s r v _ Hv. exact Hv. Qed.

Lemma keeps_lift {A} P (x : result A) : keeps P (lift x).
Proof. intros s r v _ Hv. exact Hv. Qed.

Lemma keeps_call {A} P (x : lib A) : keeps P (call x).
Proof. destruct x; intros s r v _ Hv; exact Hv. Qed.

Lemma keeps_notify P n : keeps P (notify n).
Proof. intros s r v _ Hv. exact Hv. Qed.

Lemma keeps_load P r0 : keeps P (load r0).
Proof.
  intros s r v _ Hv. unfold load. destruct (heap s !! r0); exact Hv.
Qed.

Lemma keeps_alloc P a : keeps P (alloc a).
Proof.
  intros s r v _ Hv. simpl. now apply lookup_app_l_Some.
Qed.

Lemma keeps_bind {A B} P (m : M A) (k : A -> M B) :
  keeps P m -> (forall a, keeps P (k a)) -> keeps P (m ≫= k).
Proof.
  intros Hm Hk s r v Hr Hv.
  unfold mbind, M_bind, bind.
  specialize (Hm s r v Hr Hv).
  destruct (m s) as [[a|e] s1]; simpl in *.
  - now apply Hk.
  - exact Hm.
Qed.

Lemma keeps_try_except {A} P (m : M A) (h : exn -> M A) :
  keeps P m -> (forall e, keeps P (h e)) -> keeps P (try_except m h).
Proof.
  intros Hm Hh s r v Hr Hv.
  unfold try_except.
  specialize (Hm s r v Hr Hv).
  destruct (m s) as [[a|e] s1]; simpl in *.
  - exact Hm.
  - now apply Hh.
Qed.

(** An in-place update changes the updated array only. *)
Lemma keeps_store_row (P : ref -> Prop) r0 i q :
  (forall r, P r -> r <> r0) -> keeps P (store_row r0 i q).
Proof.
  intros HP s r v Hr Hv. unfold store_row.
  destruct (heap s !! r0) as [[ | |p]|]; try exact Hv.
  destruct (decide (i < length p)%nat); [|exact Hv].
  simpl. rewrite list_lookup_insert_ne; [exact Hv|].
  intros ->. now apply (HP r).
Qed.

End Frame.

Create HintDb pipeline.

#[local] Hint Unfold np_zeros_4_2 load_points len np_greater img_as_ubyte np_rsub
  np_array Image_fromarray np_argmin np_argmax row cv2_cvtColor load_gray
  cv2_GaussianBlur cv2_Canny cv2_findContours cv2_approxPolyDP
  cv2_getPerspectiveTransform cv2_warpPerspective skimage_threshold_sauvola
  cv2_erode cv2_dilate sorted_reverse : pipeline.

Ltac frame_step :=
  lazymatch goal with
  | |- keeps _ (mret _) => apply keeps_ret
  | |- keeps _ (ret _) => apply keeps_ret
  | |- keeps _ (raise _) => apply keeps_raise
  | |- keeps _ (lift _) => apply keeps_lift
  | |- keeps _ (call _) => apply keeps_call
  | |- keeps _ (notify _) => apply keeps_notify
  | |- keeps _ (load _) => apply keeps_load
  | |- keeps _ (alloc _) => apply keeps_alloc
  | |- keeps _ (store_row _ _ _) => apply keeps_store_row; intros ? ?; assumption
  | |- keeps _ (try_except _ _) => apply keeps_try_except; [|intros ?]
  | |- keeps _ (_ ≫= _) => apply keeps_bind; [|intros ?]
  | |- keeps _ (match ?x with _ => _ end) => destruct x
  end.

Ltac frame := autounfold with pipeline; repeat frame_step.

Section FrameStages.
Context `{cv : CV2}.

Lemma keeps_mapM {A B} P (f : A -> M B) (l : list A) :
  (forall a, keeps P (f a)) -> keeps P (mapM f l).
Proof.
  intros Hf. induction l as [|a l IH]; simpl.
  - apply keeps_ret.
  - frame; auto.
Qed.

Lemma keeps_for_contours P minArea contours : keeps P (for_contours minArea contours).
Proof.
  induction contours as [|c rest IH]; simpl.
  - apply keeps_ret.
  - frame; auto.
Qed.

Lemma keeps_find_document_corners P img : keeps P (find_document_corners img).
Proof.
  unfold find_document_corners. frame.
  - apply keeps_mapM. intros c. frame.
  - apply keeps_for_contours.
Qed.

Lemma keeps_clean_up_image P image : keeps P (clean_up_image image).
Proof. unfold clean_up_image. frame. Qed.

(** [fix_perspective] updates one array in place: [ordered_corners], which
    it has just allocated. *)
Lemma fix_perspective_unchanged img corners s :
  unchanged s (snd (fix_perspective img corners s)).
Proof.
  intros r v Hv.
  unfold fix_perspective, np_zeros_4_2.
  rewrite run_alloc.
  set (o := length (heap s)).
  match goal with
  | |- heap (snd (?m ?s1)) !! r = Some v =>
    assert (K : keeps (fun r' => r' <> o) m); [|apply K]
  end.
  - frame.
  - apply lookup_lt_Some in Hv. unfold o. lia.
  - simpl. now apply lookup_app_l_Some.
Qed.

End FrameStages.

(** ** numpy: the first least and the first greatest element *)

Section Argmin.
Implicit Types (l : list Z) (i j k : nat).

Lemma argmin_from_spec l : forall i bi bv,
  let r := argmin_from i (bi, bv) l in
  snd r <= bv /\
  (forall x, In x l -> snd r <= x) /\
  ((fst r = bi /\ snd r = bv) \/
   ((i <= fst r < i + length l)%nat /\
    l !! (fst r - i)%nat = Some (snd r) /\
    snd r < bv /\
    forall k x, (k < fst r - i)%nat -> l !! k = Some x -> snd r < x)).
Proof.
  induction l as [|x l IH]; intros i bi bv; simpl.
  - split; [lia|]. split; [intros x []|]. now left.
  - destruct (Z.ltb_spec x bv) as [Hlt|Hge].
    + specialize (IH (S i) i x). simpl in IH.
      destruct IH as (Hle & Hall & Hcase).
      split; [lia|]. split.
      * intros y [<-|Hy]; [lia|]. now apply Hall.
      * right. destruct Hcase as [[Ei Ev]|(Hr & Hl & Hx & Hfirst)].
        -- rewrite Ei, Ev. replace (i - i)%nat with 0%nat by lia.
           repeat split; try lia; reflexivity.
        -- split; [lia|].
           replace (fst (argmin_from (S i) (i, x) l) - i)%nat
             with (S (fst (argmin_from (S i) (i, x) l) - S i)) by lia.
           split; [exact Hl|]. split; [lia|].
           intros [|k] y Hk Hy; simpl in Hy.
           ++ injection Hy as <-. exact Hx.
           ++ apply (Hfirst k); [lia | exact Hy].
    + specialize (IH (S i) bi bv). simpl in IH.
      destruct IH as (Hle & Hall & Hcase).
      split; [lia|]. split.
      * intros y [<-|Hy]; [lia|]. now apply Hall.
      * destruct Hcase as [[Ei Ev]|(Hr & Hl & Hx & Hfirst)]; [now left|right].
        split; [lia|].
        replace (fst (argmin_from (S i) (bi, bv) l) - i)%nat
          with (S (fst (argmin_from (S i) (bi, bv) l) - S i)) by lia.
        split; [exact Hl|]. split; [lia|].
        intros [|k] y Hk Hy; simpl in Hy.
        -- injection Hy as <-. lia.
        -- apply (Hfirst k); [lia | exact Hy].
Qed.

(** [np.argmin] returns the position of the first occurrence of the least
    element. *)
Lemma first_argmin_spec l :
  l <> [] ->
  exists m, l !! first_argmin l = Some m /\
            (forall x, In x l -> m <= x) /\
            (forall k x, (k < first_argmin l)%nat -> l !! k = Some x -> m < x).
Proof.
  destruct l as [|x l]; [congruence|]. intros _.
  unfold first_argmin.
  pose proof (argmin_from_spec l 1 0%nat x) as H. simpl in H.
  destruct H as (Hle & Hall & Hcase).
  exists (snd (argmin_from 1 (0%nat, x) l)).
  destruct Hcase as [[Ei Ev]|(Hr & Hl & Hx & Hfirst)].
  - rewrite Ei, Ev. simpl. repeat split.
    + intros y [<-|Hy]; [lia|]. rewrite <- Ev. now apply Hall.
    + intros k y Hk. lia.
  - repeat split.
    + destruct (fst (argmin_from 1 (0%nat, x) l)) as [|j] eqn:E; [lia|].
      simpl. now replace (S j - 1)%nat with j in Hl by lia.
    + intros y [<-|Hy]; [lia|]. now apply Hall.
    + intros [|k] y Hk Hy; simpl in Hy.
      * injection Hy as <-. exact Hx.
      * apply (Hfirst k); [lia | exact Hy].
Qed.

Lemma argmax_from_opp l : forall i bi bv,
  argmax_from i (bi, bv) l =
  (fst (argmin_from i (bi, - bv) (map Z.opp l)),
   - snd (argmin_from i (bi, - bv) (map Z.opp l))).
Proof.
  induction l as [|x l IH]; intros i bi bv; simpl.
  - f_equal. lia.
  - destruct (Z.ltb_spec bv x), (Z.ltb_spec (- x) (- bv)); try lia; apply IH.
Qed.

Lemma first_argmax_opp l : first_argmax l = first_argmin (map Z.opp l).
Proof.
  destruct l as [|x l]; [reflexivity|].
  unfold first_argmax, first_argmin. simpl.
  now rewrite argmax_from_opp.
Qed.

(** [np.argmax] returns the position of the first occurrence of the
    greatest element. *)
Lemma first_argmax_spec l :
  l <> [] ->
  exists m, l !! first_argmax l = Some m /\
            (forall x, In x l -> x <= m) /\
            (forall k x, (k < first_argmax l)%nat -> l !! k = Some x -> x < m).
Proof.
  intros Hl. rewrite first_argmax_opp.
  destruct (first_argmin_spec (map Z.opp l)) as (m & Hm & Hall & Hfirst).
  { destruct l; [congruence | discriminate]. }
  rewrite list_lookup_fmap in Hm.
  destruct (l !! first_argmin (map Z.opp l)) as [m'|] eqn:E; [|discriminate].
  injection Hm as <-.
  exists m'. repeat split.
  - intros x Hx. specialize (Hall (- x)).
    assert (In (- x) (map Z.opp l)) by now apply in_map.
    specialize (Hall H). lia.
  - intros k x Hk Hx. specialize (Hfirst k (- x) Hk).
    rewrite list_lookup_fmap, Hx in Hfirst. specialize (Hfirst eq_refl). lia.
Qed.

Lemma first_argmin_lt l : l <> [] -> (first_argmin l < length l)%nat.
Proof.
  intros Hl. destruct (first_argmin_spec l Hl) as (m & Hm & _).
  now apply lookup_lt_Some in Hm.
Qed.

Lemma first_argmax_lt l : l <> [] -> (first_argmax l < length l)%nat.
Proof.
  intros Hl. destruct (first_argmax_spec l Hl) as (m & Hm & _).
  now apply lookup_lt_Some in Hm.
Qed.

End Argmin.

(** ** Perspective Rectifier: what a run computes *)

Section Rectifier.
Context `{cv : CV2}.
Implicit Types (cs oc : list point) (s : state).

Lemma run_load_points {B} r p (k : list point -> M B) s :
  heap s !! r = Some (Pts p) -> (load_points r ≫= k) s = k p s.
Proof.
  intros E. unfold load_points.
  unfold mbind at 1, M_bind at 1, bind at 1.
  unfold mbind at 1, M_bind at 1, bind at 1.
  unfold load. now rewrite E.
Qed.

(** An in-place update of the array allocated last. *)
Lemma run_store_row_last {B} h lg p i q (k : unit -> M B) :
  (i < length p)%nat ->
  (store_row (length h) i q ≫= k) (State (h ++ [Pts p]) lg) =
  k tt (State (h ++ [Pts (<[i := q]> p)]) lg).
Proof.
  intros Hi. apply run_bind. unfold store_row. simpl.
  rewrite list_lookup_middle by reflexivity.
  destruct (decide (i < length p)%nat); [|contradiction].
  do 2 f_equal.
  rewrite insert_app_r_alt by lia.
  now replace (length h - length h)%nat with 0%nat by lia.
Qed.

Lemma run_argmin {B} l (k : nat -> M B) s :
  l <> [] -> (np_argmin l ≫= k) s = k (first_argmin l) s.
Proof. destruct l; [congruence|reflexivity]. Qed.

Lemma run_argmax {B} l (k : nat -> M B) s :
  l <> [] -> (np_argmax l ≫= k) s = k (first_argmax l) s.
Proof. destruct l; [congruence|reflexivity]. Qed.

Lemma run_row {B} cs i (k : point -> M B) s :
  (i < length cs)%nat -> (row cs i ≫= k) s = k (nth_point cs i) s.
Proof.
  intros Hi. unfold row, nth_point.
  destruct (lookup_lt_is_Some_2 cs i Hi) as [q ->]. reflexivity.
Qed.

(** A run of [fix_perspective] on a non-empty array of corners allocates
    [ordered_corners], fills it with [order_corners cs] and goes on with
    the size check and the warp. *)
Lemma fix_perspective_run img corners cs s :
  heap s !! corners = Some (Pts cs) -> cs <> [] ->
  fix_perspective img corners s =
  rectify img (length (heap s)) (target_size (order_corners cs))
    (State (heap s ++ [Pts (order_corners cs)]) (log s)).
Proof.
  intros Hc Hne.
  assert (Hs : sum_axis1 cs <> []) by (destruct cs; [congruence|discriminate]).
  assert (Hd : diff_axis1 cs <> []) by (destruct cs; [congruence|discriminate]).
  assert (Ls : length (sum_axis1 cs) = length cs) by apply length_map.
  assert (Ld : length (diff_axis1 cs) = length cs) by apply length_map.
  pose proof (first_argmin_lt _ Hs). pose proof (first_argmax_lt _ Hs).
  pose proof (first_argmin_lt _ Hd). pose proof (first_argmax_lt _ Hd).
  unfold fix_perspective, np_zeros_4_2.
  rewrite run_alloc.
  rewrite (run_load_points corners cs) by (simpl; now apply lookup_app_l_Some).
  rewrite run_argmin, run_row, run_store_row_last by (simpl; lia || assumption).
  rewrite run_argmax, run_row, run_store_row_last by (simpl; lia || assumption).
  rewrite run_argmin, run_row, run_store_row_last by (simpl; lia || assumption).
  rewrite run_argmax, run_row, run_store_row_last by (simpl; lia || assumption).
  rewrite (run_load_points (length (heap s)) _)
    by (simpl; apply list_lookup_middle; reflexivity).
  reflexivity.
Qed.

End Rectifier.

Section RectifierFacts.
Context `{cv : CV2}.
Implicit Types (cs oc : list point) (s : state) (f : Z * Z -> Z).

Lemma wrap_small w z :
  0 < w -> - 2 ^ (w - 1) <= z < 2 ^ (w - 1) -> wrap w z = z.
Proof.
  intros Hw Hz. unfold wrap.
  assert (E : 2 ^ w = 2 * 2 ^ (w - 1)).
  { replace w with (Z.succ (w - 1)) at 1 by lia. apply Z.pow_succ_r. lia. }
  rewrite E. generalize dependent (2 ^ (w - 1)). intros P HP _.
  rewrite Z.mod_small by lia. lia.
Qed.

Lemma sum_axis1_pixels cs :
  pixel_coordinates cs -> sum_axis1 cs = map coord_sum cs.
Proof.
  intros Hp. unfold sum_axis1. apply map_ext_in. intros q Hq.
  unfold pixel_coordinates in Hp. rewrite Forall_forall in Hp.
  apply list_elem_of_In, Hp in Hq.
  apply wrap_small; [lia|]. unfold coord_sum.
  change (2 ^ (64 - 1)) with 9223372036854775808.
  change (2 ^ 31) with 2147483648 in Hq. lia.
Qed.

Lemma diff_axis1_pixels cs :
  pixel_coordinates cs -> diff_axis1 cs = map coord_diff cs.
Proof.
  intros Hp. unfold diff_axis1. apply map_ext_in. intros q Hq.
  unfold pixel_coordinates in Hp. rewrite Forall_forall in Hp.
  apply list_elem_of_In, Hp in Hq.
  apply wrap_small; [lia|]. unfold coord_diff.
  change (2 ^ (32 - 1)) with 2147483648.
  change (2 ^ 31) with 2147483648 in Hq. lia.
Qed.

(** The row picked by [np.argmin] of the keys is a point of least key, and
    no earlier row has that key. *)
Lemma nth_first_argmin f cs :
  cs <> [] -> least f cs (nth_point cs (first_argmin (map f cs))).
Proof.
  intros Hne.
  destruct (first_argmin_spec (map f cs)) as (m & Hm & Hall & _).
  { destruct cs; [congruence|discriminate]. }
  rewrite list_lookup_fmap in Hm. unfold nth_point.
  destruct (cs !! first_argmin (map f cs)) as [q|] eqn:E; [|discriminate].
  injection Hm as <-. simpl. split.
  - apply list_elem_of_In. eapply list_elem_of_lookup_2. exact E.
  - intros p Hp. apply Hall. now apply in_map.
Qed.

Lemma nth_first_argmax f cs :
  cs <> [] -> greatest f cs (nth_point cs (first_argmax (map f cs))).
Proof.
  intros Hne.
  destruct (first_argmax_spec (map f cs)) as (m & Hm & Hall & _).
  { destruct cs; [congruence|discriminate]. }
  rewrite list_lookup_fmap in Hm. unfold nth_point.
  destruct (cs !! first_argmax (map f cs)) as [q|] eqn:E; [|discriminate].
  injection Hm as <-. simpl. split.
  - apply list_elem_of_In. eapply list_elem_of_lookup_2. exact E.
  - intros p Hp. apply Hall. now apply in_map.
Qed.

(** The four rows of [ordered_corners], for corners in pixel space. *)
Lemma order_corners_spec cs :
  cs <> [] -> pixel_coordinates cs ->
  exists tl tr br bl,
    order_corners cs = [tl; tr; br; bl] /\
    least coord_sum cs tl /\ least coord_diff cs tr /\
    greatest coord_sum cs br /\ greatest coord_diff cs bl.
Proof.
  intros Hne Hp. unfold order_corners.
  rewrite (sum_axis1_pixels cs Hp), (diff_axis1_pixels cs Hp).
  do 4 eexists. split; [reflexivity|].
  repeat split; try apply nth_first_argmin; try apply nth_first_argmax; assumption.
Qed.

Lemma least_perm f cs cs' p : Permutation cs cs' -> least f cs p -> least f cs' p.
Proof.
  intros HP [Hin Hle]. split.
  - eapply Permutation_in; eassumption.
  - intros q Hq. apply Hle. eapply Permutation_in; [symmetry|]; eassumption.
Qed.

Lemma greatest_perm f cs cs' p :
  Permutation cs cs' -> greatest f cs p -> greatest f cs' p.
Proof.
  intros HP [Hin Hle]. split.
  - eapply Permutation_in; eassumption.
  - intros q Hq. apply Hle. eapply Permutation_in; [symmetry|]; eassumption.
Qed.

Lemma pixel_coordinates_perm cs cs' :
  Permutation cs cs' -> pixel_coordinates cs -> pixel_coordinates cs'.
Proof.
  unfold pixel_coordinates. intros HP H. rewrite Forall_forall in *.
  intros q Hq. apply H. apply list_elem_of_In. apply list_elem_of_In in Hq.
  eapply Permutation_in; [symmetry|]; eassumption.
Qed.

(** When no two points tie for an extreme sum or difference, the ordered
    corners do not depend on the order of the input rows. *)
Lemma order_corners_perm cs cs' :
  cs <> [] -> pixel_coordinates cs -> Permutation cs cs' ->
  unique_extremes coord_sum cs -> unique_extremes coord_diff cs ->
  order_corners cs = order_corners cs'.
Proof.
  intros Hne Hp HP [Smin Smax] [Dmin Dmax].
  assert (Hne' : cs' <> []).
  { intros ->. apply Permutation_nil_r in HP. congruence. }
  pose proof (pixel_coordinates_perm _ _ HP Hp) as Hp'.
  destruct (order_corners_spec cs Hne Hp) as (tl & tr & br & bl & -> & H1 & H2 & H3 & H4).
  destruct (order_corners_spec cs' Hne' Hp')
    as (tl' & tr' & br' & bl' & -> & H1' & H2' & H3' & H4').
  symmetry in HP.
  f_equal; [|f_equal; [|f_equal; [|f_equal]]].
  - apply Smin; [assumption|]. eapply least_perm; eassumption.
  - apply Dmin; [assumption|]. eapply least_perm; eassumption.
  - apply Smax; [assumption|]. eapply greatest_perm; eassumption.
  - apply Dmax; [assumption|]. eapply greatest_perm; eassumption.
Qed.

End RectifierFacts.

Section RectifierResult.
Context `{cv : CV2}.
Implicit Types (cs oc : list point) (s : state).

Lemma run_assoc {A B C} (m : M A) (k1 : A -> M B) (k2 : B -> M C) s :
  ((m ≫= k1) ≫= k2) s = (m ≫= fun a => k1 a ≫= k2) s.
Proof.
  unfold mbind, M_bind, bind. destruct (m s) as [[a|e] s1]; reflexivity.
Qed.

Lemma run_call_ok {A B} (x : lib A) a (k : A -> M B) s :
  x = Ok a -> (call x ≫= k) s = k a s.
Proof. intros ->. reflexivity. Qed.

Lemma run_call_err {A B} (x : lib A) code (k : A -> M B) s :
  x = Err code -> (call x ≫= k) s = (Raise (LibraryError code), s).
Proof. intros ->. reflexivity. Qed.

(** The complete outcome of [fix_perspective]: the value [rectified], in a
    store extended by [ordered_corners], [destination_corners] and the
    corrected image. *)
Lemma fix_perspective_result img corners a cs s :
  heap s !! img = Some a -> heap s !! corners = Some (Pts cs) -> cs <> [] ->
  match rectified a cs with
  | Ret b =>
    fix_perspective img corners s =
    (Ret (length (heap s) + 2)%nat,
     State (heap s ++ [Pts (order_corners cs);
                       Pts (destination (target_size (order_corners cs))); b])
           (log s))
  | Raise e =>
    exists h', fix_perspective img corners s =
               (Raise e, State (heap s ++ Pts (order_corners cs) :: h') (log s))
  end.
Proof.
  intros Hi Hc Hne.
  rewrite (fix_perspective_run img corners cs s Hc Hne).
  unfold rectified, rectify.
  destruct (target_size (order_corners cs)) as [mw mh] eqn:Esize. simpl fst; simpl snd.
  destruct ((mw <? 50) || (mh <? 50)).
  { exists []. reflexivity. }
  rewrite run_alloc. simpl heap. simpl log.
  unfold cv2_getPerspectiveTransform.
  rewrite run_assoc.
  rewrite (run_load_points _ (order_corners cs))
    by (simpl; apply lookup_app_l_Some, list_lookup_middle; reflexivity).
  rewrite run_assoc.
  rewrite (run_load_points _ (destination (mw, mh)))
    by (simpl; apply list_lookup_middle; reflexivity).
  destruct (getPerspectiveTransform (order_corners cs) (destination (mw, mh)))
    as [m|code] eqn:Et.
  2:{ rewrite (run_bind_raise _ _ _ (LibraryError code) _) by reflexivity.
      exists [Pts (destination (mw, mh))]. now rewrite <- app_assoc. }
  rewrite (run_bind _ _ _ m _) by reflexivity.
  unfold cv2_warpPerspective.
  rewrite run_assoc.
  rewrite (run_load img a) by (simpl; now apply lookup_app_l_Some, lookup_app_l_Some).
  destruct (warpPerspective a m (mw, mh)) as [b|code] eqn:Ew.
  2:{ rewrite (run_bind_raise _ _ _ (LibraryError code) _) by reflexivity.
      exists [Pts (destination (mw, mh))]. now rewrite <- app_assoc. }
  unfold mbind, M_bind, bind, call, alloc, mret, M_ret, ret, destination. simpl.
  rewrite !length_app. simpl. rewrite <- !app_assoc. simpl.
  do 2 f_equal. lia.
Qed.

End RectifierResult.

(** ** Perspective Rectifier: ordering, validation, permutations *)

Section RectifierClaims.
Context `{cv : CV2}.
Implicit Types (cs oc : list point) (s : state).


Lemma edge_length_lt_50 (p q : point) : edge_length p q < 50 <-> sq_dist p q < 50 ^ 2.
Proof.
  unfold edge_length. fold (sq_dist p q).
  assert (H0 : 0 <= sq_dist p q) by (unfold sq_dist; nia).
  pose proof (Z.sqrt_spec (sq_dist p q) H0) as Hs. cbv zeta in Hs.
  pose proof (Z.sqrt_nonneg (sq_dist p q)).
  split; intros; nia.
Qed.



(** C7 (as amended): when no two of the 4 corner points tie for the least
    or the greatest x+y or y-x, every permutation of them gives the same
    ordered corners, and [fix_perspective] the same outcome and the same
    output image. *)
Theorem permutation_invariance img corners a cs cs' h lg :
  h !! img = Some a -> h !! corners = Some (Pts cs) -> img <> corners ->
  length cs = 4%nat -> pixel_coordinates cs -> Permutation cs cs' ->
  unique_extremes coord_sum cs -> unique_extremes coord_diff cs ->
  let run := fix_perspective img corners (State h lg) in
  let run' := fix_perspective img corners (State (<[corners := Pts cs']> h) lg) in
  order_corners cs = order_corners cs' /\
  fst run = fst run' /\
  forall r, fst run = Ret r -> heap (snd run) !! r = heap (snd run') !! r.
Proof.
  intros Hi Hc Hic Hlen Hp HP Hs Hd run run'.
  assert (Hne : cs <> []) by (intros ->; discriminate).
  assert (Hne' : cs' <> []).
  { intros ->. apply Permutation_nil_r in HP. congruence. }
  pose proof (order_corners_perm cs cs' Hne Hp HP Hs Hd) as E.
  split; [exact E|].
  assert (Hi' : <[corners := Pts cs']> h !! img = Some a)
    by now rewrite list_lookup_insert_ne by auto.
  assert (Hc' : <[corners := Pts cs']> h !! corners = Some (Pts cs')).
  { apply list_lookup_insert_eq. now apply lookup_lt_Some in Hc. }
  pose proof (fix_perspective_result img corners a cs (State h lg) Hi Hc Hne) as R.
  pose proof (fix_perspective_result img corners a cs'
                (State (<[corners := Pts cs']> h) lg) Hi' Hc' Hne') as R'.
  assert (ER : rectified a cs = rectified a cs') by (unfold rectified; now rewrite E).
  rewrite <- ER, <- E in R'. fold run in R. fold run' in R'.
  cbn [heap log] in R, R'. rewrite length_insert in R'.
  destruct (rectified a cs) as [b|e].
  - rewrite R, R'. cbn [fst snd heap]. split; [reflexivity|].
    intros r [= <-].
    rewrite !lookup_app_r by (rewrite ?length_insert; lia).
    rewrite length_insert. reflexivity.
  - destruct R as [h1 ->], R' as [h2 ->]. cbn [fst]. split; [reflexivity|].
    intros r [=].
Qed.

End RectifierClaims.

Lemma pixel_coordinates_square : pixel_coordinates Fixture.square.
Proof.
  unfold pixel_coordinates, Fixture.square.
  repeat (constructor; [simpl; lia|]). constructor.
Qed.

Lemma pixel_coordinates_diamond : pixel_coordinates Fixture.diamond.
Proof.
  unfold pixel_coordinates, Fixture.diamond.
  repeat (constructor; [simpl; lia|]). constructor.
Qed.





Ltac extremes_of_four :=
  intros p q [Hp Lp] [Hq Lq];
  pose proof (Lp _ (or_introl eq_refl));
  pose proof (Lp _ (or_intror (or_introl eq_refl)));
  pose proof (Lp _ (or_intror (or_intror (or_introl eq_refl))));
  pose proof (Lp _ (or_intror (or_intror (or_intror (or_introl eq_refl)))));
  pose proof (Lq _ (or_introl eq_refl));
  pose proof (Lq _ (or_intror (or_introl eq_refl)));
  pose proof (Lq _ (or_intror (or_intror (or_introl eq_refl))));
  pose proof (Lq _ (or_intror (or_intror (or_intror (or_introl eq_refl)))));
  clear Lp Lq; simpl in Hp, Hq;
  repeat match goal with
         | H : _ \/ _ |- _ => destruct H as [<-|H]
         | H : False |- _ => destruct H
         end;
  unfold coord_sum, coord_diff in *; simpl in *; first [reflexivity | lia].

Lemma unique_extremes_square :
  unique_extremes coord_sum Fixture.square /\ unique_extremes coord_diff Fixture.square.
Proof.
  unfold unique_extremes, least, greatest, Fixture.square.
  repeat split; extremes_of_four.
Qed.

Lemma permutation_invariance_witness :
  order_corners Fixture.square = order_corners (rev Fixture.square) /\
  fst (@fix_perspective Fixture.cv 0%nat 1%nat (Fixture.with_corners Fixture.square)) =
  fst (@fix_perspective Fixture.cv 0%nat 1%nat (Fixture.with_corners (rev Fixture.square))).
Proof.
  destruct unique_extremes_square as [Hs Hd].
  destruct (@permutation_invariance Fixture.cv 0%nat 1%nat (Fixture.white 2 2)
              Fixture.square (rev Fixture.square)
              [Fixture.white 2 2; Pts Fixture.square] []
              eq_refl eq_refl ltac:(discriminate) eq_refl
              pixel_coordinates_square (Permutation_rev _) Hs Hd)
    as (E1 & E2 & _).
  split; [exact E1 | exact E2].
Defined.

(** C7 (as stated) fails: the square standing on a corner has two points
    of least x+y and two of least y-x; listed in the opposite order, the
    same four points get another assignment and an output image of
    another size. *)
Lemma permutation_invariance_counterexample :
  Permutation Fixture.diamond (rev Fixture.diamond) /\
  order_corners Fixture.diamond = [(50, 0); (50, 0); (100, 50); (50, 100)] /\
  order_corners (rev Fixture.diamond) = [(0, 50); (100, 50); (50, 100); (0, 50)] /\
  heap (snd (@fix_perspective Fixture.cv 0%nat 1%nat
               (Fixture.with_corners Fixture.diamond))) !! 2%nat =
    Some (Pts [(50, 0); (50, 0); (100, 50); (50, 100)]) /\
  heap (snd (@fix_perspective Fixture.cv 0%nat 1%nat
               (Fixture.with_corners (rev Fixture.diamond)))) !! 2%nat =
    Some (Pts [(0, 50); (100, 50); (50, 100); (0, 50)]) /\
  target_size (order_corners Fixture.diamond) = (70, 100) /\
  target_size (order_corners (rev Fixture.diamond)) = (100, 70).
Proof.
  split; [apply Permutation_rev|].
  repeat split; vm_compute; reflexivity.
Qed.

(** C9: no stage mutates its input in place. Whatever [find_document_corners],
    [fix_perspective] or [clean_up_image] does, returning or raising, every
    array that was in the store before the stage ran - its input among
    them - is in the store unchanged afterwards, so the image a stage was
    given is still there for the fallback. *)
Theorem stages_leave_inputs_unchanged `{cv : CV2} :
  (forall img s, unchanged s (snd (find_document_corners img s))) /\
  (forall img corners s, unchanged s (snd (fix_perspective img corners s))) /\
  (forall image s, unchanged s (snd (clean_up_image image s))).
Proof.
  split; [|split].
  - intros img s r v Hv. now apply keeps_find_document_corners with (P := fun _ => True).
  - intros img corners s. apply fix_perspective_unchanged.
  - intros image s r v Hv. now apply keeps_clean_up_image with (P := fun _ => True).
Qed.

(** ** Corner Detector: sorting the contours *)

Section Sorting.
Context {A : Type}.
Implicit Types (x y : Q * A) (l : list (Q * A)).

Lemma Qltb_true (a b : Q) : Qltb a b = true <-> (a < b)%Q.
Proof.
  unfold Qltb. rewrite negb_true_iff.
  split.
  - intros E. apply Qnot_le_lt. intros Hle.
    apply Qle_bool_iff in Hle. congruence.
  - intros Hlt. destruct (Qle_bool b a) eqn:E; [|reflexivity].
    apply Qle_bool_iff in E. exfalso. now apply (Qlt_not_le a b).
Qed.

Lemma Qltb_false (a b : Q) : Qltb a b = false <-> (b <= a)%Q.
Proof.
  unfold Qltb. rewrite negb_false_iff. apply Qle_bool_iff.
Qed.

Lemma insert_desc_perm x l : Permutation (insert_desc x l) (x :: l).
Proof.
  induction l as [|y l IH]; simpl; [reflexivity|].
  destruct (Qltb (fst x) (fst y)); [|reflexivity].
  rewrite IH. apply perm_swap.
Qed.

Lemma sort_desc_perm l : Permutation (sort_desc l) l.
Proof.
  induction l as [|x l IH]; simpl; [reflexivity|].
  fold (sort_desc l). rewrite insert_desc_perm. now constructor.
Qed.

Lemma insert_desc_sorted x l :
  StronglySorted key_ge l -> StronglySorted key_ge (insert_desc x l).
Proof.
  induction l as [|y l IH]; intros Hs; simpl.
  - constructor; constructor.
  - apply StronglySorted_inv in Hs. destruct Hs as [Hl Hy].
    destruct (Qltb (fst x) (fst y)) eqn:E.
    + constructor; [now apply IH|].
      apply Qltb_true in E.
      eapply Permutation_Forall; [symmetry; apply insert_desc_perm|].
      constructor; [|exact Hy]. unfold key_ge. now apply Qlt_le_weak.
    + apply Qltb_false in E.
      constructor; [now constructor|].
      constructor; [exact E|].
      eapply Forall_impl; [exact Hy|].
      intros z Hz. unfold key_ge in *. eapply Qle_trans; eassumption.
Qed.

Lemma sort_desc_sorted l : StronglySorted key_ge (sort_desc l).
Proof.
  induction l as [|x l IH]; simpl; [constructor|].
  now apply insert_desc_sorted.
Qed.

End Sorting.

Section Detector.
Context `{cv : CV2}.
Implicit Types (c d : list (Z * Z)) (contours l : list (list (Z * Z))) (s : state).

Lemma zip_keys (f : list (Z * Z) -> Q) l : zip (map f l) l = map (fun c => (f c, c)) l.
Proof. induction l as [|c l IH]; simpl; [reflexivity|]. now rewrite <- IH. Qed.

Lemma by_area_perm contours : Permutation (by_area contours) contours.
Proof.
  unfold by_area. rewrite zip_keys.
  rewrite (sort_desc_perm (map (fun c => (area_of c, c)) contours)).
  rewrite map_map. simpl. now rewrite map_id.
Qed.

Lemma sorted_by_key (l : list (Q * list (Z * Z))) :
  StronglySorted key_ge l ->
  Forall (fun p => fst p = area_of (snd p)) l ->
  StronglySorted area_ge (map snd l).
Proof.
  induction 1 as [|p l Hs IH Hp]; intros Hk; simpl; [constructor|].
  apply Forall_cons in Hk. destruct Hk as [Ep Hk].
  constructor; [now apply IH|].
  apply Forall_map.
  rewrite Forall_forall in *. intros q Hq.
  unfold area_ge, key_ge in *.
  rewrite <- Ep, <- (Hk q Hq). now apply Hp.
Qed.

(** The contours are examined in descending order of area. *)
Lemma by_area_sorted contours : StronglySorted area_ge (by_area contours).
Proof.
  unfold by_area. rewrite zip_keys.
  apply sorted_by_key; [apply sort_desc_sorted|].
  eapply Permutation_Forall; [symmetry; apply sort_desc_perm|].
  apply Forall_map. apply Forall_forall. reflexivity.
Qed.

Lemma candidates_subset contours c : In c (candidates contours) -> In c contours.
Proof.
  unfold candidates. intros Hc.
  eapply Permutation_in; [apply by_area_perm|].
  apply list_elem_of_In. apply list_elem_of_In in Hc.
  now apply (subseteq_take 6 (by_area contours)).
Qed.

Lemma run_mapM_area {B} l (k : list Q -> M B) s :
  (forall c, In c l -> ok (contourArea c)) ->
  (mapM (fun c => call (contourArea c)) l ≫= k) s = k (map area_of l) s.
Proof.
  intros Hok. apply run_bind. revert Hok.
  induction l as [|c l IH]; intros Hok; [reflexivity|].
  simpl. destruct (Hok c (or_introl eq_refl)) as [x Ex].
  unfold area_of at 1. rewrite Ex.
  rewrite (run_call_ok _ x) by reflexivity.
  rewrite (run_bind _ _ s (map area_of l) s); [reflexivity|].
  apply IH. intros d Hd. apply Hok. now right.
Qed.

Lemma run_sorted_reverse {B} contours (k : list (list (Z * Z)) -> M B) s :
  (forall c, In c contours -> ok (contourArea c)) ->
  (sorted_reverse (fun c => call (contourArea c)) contours ≫= k) s =
  k (by_area contours) s.
Proof.
  intros Hok. unfold sorted_reverse.
  rewrite run_assoc, run_mapM_area by assumption. reflexivity.
Qed.

End Detector.

Section DetectorRun.
Context `{cv : CV2}.
Implicit Types (c d : list (Z * Z)) (contours l : list (list (Z * Z))) (s : state).

Lemma verdict_skip minArea c l v :
  ~ qualified minArea c -> verdict minArea l v -> verdict minArea (c :: l) v.
Proof.
  intros Hc [pre d post -> Hpre Hd|Hall].
  - apply (accept minArea _ (c :: pre) d post); [reflexivity| |assumption].
    now constructor.
  - apply reject. now constructor.
Qed.

(** The loop returns the first qualified candidate. *)
Lemma for_contours_run minArea l : forall h lg,
  (forall c, In c l -> measurable c) ->
  exists h' v res,
    verdict minArea l v /\
    for_contours minArea l (State h lg) = (Ret res, State (h ++ h') lg) /\
    found (h ++ h') v res.
Proof.
  induction l as [|c l IH]; intros h lg Hm.
  - exists [], None, None. split; [apply reject; constructor|].
    split; [simpl; now rewrite app_nil_r | exact I].
  - assert (Hl : forall d, In d l -> measurable d) by (intros d Hd; apply Hm; now right).
    destruct (Hm c (or_introl eq_refl)) as ([x Ex] & [p Ep] & Hpoly).
    assert (Ea : area_of c = x) by (unfold area_of; now rewrite Ex).
    assert (Epe : perimeter_of c = p) by (unfold perimeter_of; now rewrite Ep).
    rewrite Epe in Hpoly. destruct Hpoly as [poly Epoly].
    assert (Epo : polygon_of c = poly).
    { unfold polygon_of. rewrite Epe. now rewrite Epoly. }
    simpl for_contours. rewrite (run_call_ok _ x) by assumption.
    destruct (Qltb x minArea) eqn:Earea.
    { destruct (IH h lg Hl) as (h' & v & res & Hv & Hrun & Hf).
      exists h', v, res. split; [|now split].
      apply verdict_skip; [|assumption].
      intros (Hq & _). rewrite Ea in Hq. apply Qltb_true in Earea.
      now apply (Qlt_not_le x minArea). }
    rewrite (run_call_ok _ p) by assumption.
    destruct (Qltb p (inject_Z 100)) eqn:Eperi.
    { destruct (IH h lg Hl) as (h' & v & res & Hv & Hrun & Hf).
      exists h', v, res. split; [|now split].
      apply verdict_skip; [|assumption].
      intros (_ & Hq & _). rewrite Epe in Hq. apply Qltb_true in Eperi.
      now apply (Qlt_not_le p (inject_Z 100)). }
    unfold cv2_approxPolyDP. rewrite run_assoc, (run_call_ok _ poly) by assumption.
    rewrite run_alloc. cbn [heap log].
    unfold len. rewrite run_assoc.
    rewrite (run_load (length h) (Pts poly))
      by (cbn [heap]; apply list_lookup_middle; reflexivity).
    rewrite run_ret. cbn [shape2 fst].
    destruct (Nat.eqb_spec (length poly) 4) as [E4|N4].
    + exists [Pts poly], (Some c), (Some (length h)).
      split; [|split].
      * apply (accept minArea _ [] c l); [reflexivity|constructor|].
        apply Qltb_false in Earea, Eperi.
        unfold qualified. now rewrite Ea, Epe, Epo.
      * reflexivity.
      * simpl. rewrite Epo. apply list_lookup_middle. reflexivity.
    + destruct (IH (h ++ [Pts poly]) lg Hl) as (h' & v & res & Hv & Hrun & Hf).
      exists (Pts poly :: h'), v, res.
      replace (h ++ Pts poly :: h') with ((h ++ [Pts poly]) ++ h')
        by now rewrite <- app_assoc.
      split; [|now split].
      apply verdict_skip; [|assumption].
      intros (_ & _ & Hq). rewrite Epo in Hq. contradiction.
Qed.

End DetectorRun.

Section DetectorClaims.
Context `{cv : CV2}.
Implicit Types (c d : list (Z * Z)) (contours l : list (list (Z * Z))) (s : state).

Lemma run_load_gray {B} r g (k : list (list Z) -> M B) s :
  heap s !! r = Some (Arr2 g) -> (load_gray r ≫= k) s = k g s.
Proof.
  intros E. unfold load_gray. rewrite run_assoc, (run_load r (Arr2 g)) by assumption.
  reflexivity.
Qed.

Lemma run_lift {A B} (a : A) (k : A -> M B) s : (lift (Ret a) ≫= k) s = k a s.
Proof. reflexivity. Qed.

Lemma cvtColor_gray a :
  channels a = 3%nat \/ channels a = 4%nat ->
  cvtColor (Arr3 a) COLOR_BGR2GRAY = Ret (Arr2 (map (map luma) a)).
Proof. intros [E|E]; unfold cvtColor; rewrite E; reflexivity. Qed.

(** A run of the detector on a colour image, when the primitives it calls
    succeed. *)
Lemma find_document_corners_run img a edged contours s :
  heap s !! img = Some (Arr3 a) -> channels a = 3%nat ->
  edge_map a edged ->
  findContours edged RETR_LIST CHAIN_APPROX_SIMPLE = Ok contours ->
  (forall c, In c contours -> measurable c) ->
  exists v res s',
    verdict (min_area (Arr3 a)) (candidates contours) v /\
    find_document_corners img s = (Ret res, s') /\
    found (heap s') v res.
Proof.
  intros Hi Hch (blurred & Eb & Ee) Ec Hm. destruct s as [h lg]. cbn [heap] in Hi.
  unfold find_document_corners.
  rewrite (run_load img (Arr3 a)) by assumption. cbn [shape2].
  unfold cv2_cvtColor.
  rewrite run_assoc, (run_load img (Arr3 a)) by assumption.
  rewrite cvtColor_gray by now left.
  rewrite run_assoc, run_lift, run_alloc. cbn [heap log].
  unfold cv2_GaussianBlur.
  rewrite run_assoc, (run_load_gray _ (map (map luma) a))
    by (cbn [heap]; apply list_lookup_middle; reflexivity).
  rewrite run_assoc, (run_call_ok _ blurred), run_alloc by assumption. cbn [heap log].
  unfold cv2_Canny.
  rewrite run_assoc, (run_load_gray _ blurred)
    by (cbn [heap]; apply list_lookup_middle; reflexivity).
  rewrite run_assoc, (run_call_ok _ edged), run_alloc by assumption. cbn [heap log].
  unfold cv2_findContours.
  rewrite run_assoc, (run_load_gray _ edged)
    by (cbn [heap]; apply list_lookup_middle; reflexivity).
  rewrite (run_call_ok _ contours) by assumption.
  rewrite run_sorted_reverse by (intros c Hc; now destruct (Hm c Hc)).
  fold (candidates contours).
  destruct (for_contours_run (min_area (Arr3 a)) (candidates contours)
              (((h ++ [Arr2 (map (map luma) a)]) ++ [Arr2 blurred]) ++ [Arr2 edged]) lg)
    as (h' & v & res & Hv & Hrun & Hf).
  { intros c Hc. apply Hm. now apply candidates_subset. }
  exists v, res. eexists. split; [exact Hv|].
  split; [exact Hrun | exact Hf].
Qed.

(** C2: for every 3-channel image, [find_document_corners] grayscales,
    blurs with a 5x5 Gaussian and runs Canny with thresholds 70 and 150
    ([edge_map]); of the contours of that edge map, taken in descending
    order of enclosed area, it keeps the first 6 ([candidates]); it
    returns the 4 vertices of the first candidate whose area is at least
    10% of the image area, whose perimeter is at least 100 and whose
    polygon approximation at 2% of the perimeter has exactly 4 vertices
    ([verdict], [qualified]), and [None] when no candidate qualifies. *)
Theorem corner_detection img a edged contours s :
  heap s !! img = Some (Arr3 a) -> channels a = 3%nat ->
  edge_map a edged ->
  findContours edged RETR_LIST CHAIN_APPROX_SIMPLE = Ok contours ->
  (forall c, In c contours -> measurable c) ->
  Permutation (by_area contours) contours /\
  StronglySorted area_ge (by_area contours) /\
  candidates contours = take 6 (by_area contours) /\
  (length (candidates contours) <= 6)%nat /\
  exists v res s',
    verdict (min_area (Arr3 a)) (candidates contours) v /\
    find_document_corners img s = (Ret res, s') /\
    found (heap s') v res.
Proof.
  intros Hi Hch He Ec Hm.
  split; [apply by_area_perm|]. split; [apply by_area_sorted|].
  split; [reflexivity|]. split.
  - unfold candidates. rewrite length_take. lia.
  - eapply find_document_corners_run; eassumption.
Qed.


End DetectorClaims.

(** ** Rasters: shapes and pixels *)

Section Raster.
Implicit Types (y x : Z).

Lemma get2_Some {A} (a : list (list A)) y x v :
  get2 a y x = Some v <->
  0 <= y /\ 0 <= x /\ exists r, a !! Z.to_nat y = Some r /\ r !! Z.to_nat x = Some v.
Proof.
  unfold get2.
  destruct (Z.leb_spec 0 y), (Z.leb_spec 0 x); simpl;
    try (split; [discriminate | intros (? & ? & _); lia]).
  destruct (a !! Z.to_nat y) as [r|].
  - split.
    + intros E. repeat split; try assumption. now exists r.
    + intros (_ & _ & r' & [= <-] & E). exact E.
  - split; [discriminate|]. intros (_ & _ & r' & [=] & _).
Qed.

Lemma get2_map {A B} (f : A -> B) (a : list (list A)) y x :
  get2 (map (map f) a) y x = f <$> get2 a y x.
Proof.
  unfold get2. destruct ((0 <=? y) && (0 <=? x)); [|reflexivity].
  change (map (map f) a) with (map f <$> a). rewrite list_lookup_fmap.
  destruct (a !! Z.to_nat y) as [r|]; simpl; [|reflexivity].
  change (map f r) with (f <$> r). apply list_lookup_fmap.
Qed.

Lemma get2_zip_with {A B C} (f : A -> B -> C) (a : list (list A)) (b : list (list B))
    y x va vb :
  get2 a y x = Some va -> get2 b y x = Some vb ->
  get2 (zip_with (zip_with f) a b) y x = Some (f va vb).
Proof.
  rewrite !get2_Some.
  intros (Hy & Hx & ra & Era & Eva) (_ & _ & rb & Erb & Evb).
  repeat split; try assumption.
  exists (zip_with f ra rb). split.
  - rewrite (lookup_zip_with (zip_with f) a b), Era, Erb. reflexivity.
  - rewrite (lookup_zip_with f ra rb), Eva, Evb. reflexivity.
Qed.

Lemma get2_morph op border src kernel y x v :
  get2 src y x = Some v ->
  get2 (morph op border src kernel) y x =
  Some (morph_pixel op border src (kernel_offsets kernel) (Z.to_nat y) (Z.to_nat x)).
Proof.
  rewrite !get2_Some. intros (Hy & Hx & r & Er & Ev).
  repeat split; try assumption.
  eexists. split.
  - unfold morph. rewrite list_lookup_imap, Er. reflexivity.
  - rewrite list_lookup_imap, Ev. reflexivity.
Qed.

Lemma rect_map {A B} (f : A -> B) h w (a : list (list A)) :
  rect h w a -> rect h w (map (map f) a).
Proof.
  intros [Hh Hw]. split; [now rewrite length_map|].
  apply Forall_map. eapply Forall_impl; [exact Hw|].
  intros r Hr. simpl. now rewrite length_map.
Qed.

Lemma rect_morph op border src kernel h w :
  rect h w src -> rect h w (morph op border src kernel).
Proof.
  intros [Hh Hw]. unfold morph. split; [now rewrite length_imap|].
  apply Forall_forall. intros r Hr.
  apply list_elem_of_lookup in Hr. destruct Hr as [i Hi].
  rewrite list_lookup_imap in Hi.
  destruct (src !! i) as [r0|] eqn:E; [|discriminate].
  injection Hi as <-. rewrite length_imap.
  rewrite Forall_forall in Hw. apply Hw.
  eapply list_elem_of_lookup_2. exact E.
Qed.

Lemma same_shape_rect {A B} (a : list (list A)) (b : list (list B)) h w :
  same_shape a b = true -> rect h w a -> rect h w b.
Proof.
  unfold same_shape. intros Hs [Hh Hw].
  apply andb_true_iff in Hs. destruct Hs as [Hl Hr].
  apply Nat.eqb_eq in Hl. split; [congruence|].
  rewrite forallb_forall in Hr.
  apply Forall_forall. intros rb Hrb.
  apply list_elem_of_lookup in Hrb. destruct Hrb as [i Hi].
  destruct (lookup_lt_is_Some_2 a i) as [ra Hra].
  { rewrite Hl. now apply lookup_lt_Some in Hi. }
  assert (Hin : In (ra, rb) (zip a b)).
  { apply list_elem_of_In. apply list_elem_of_lookup. exists i.
    unfold zip. rewrite (lookup_zip_with pair a b), Hra, Hi. reflexivity. }
  apply Hr in Hin. simpl in Hin. apply Nat.eqb_eq in Hin.
  rewrite <- Hin. rewrite Forall_forall in Hw. apply Hw.
  eapply list_elem_of_lookup_2. exact Hra.
Qed.

Lemma rect_zip_with {A B C} (f : A -> B -> C) h w (a : list (list A)) (b : list (list B)) :
  rect h w a -> rect h w b -> rect h w (zip_with (zip_with f) a b).
Proof.
  intros [Ha Wa] [Hb Wb]. split.
  - rewrite length_zip_with. lia.
  - apply Forall_forall. intros r Hr.
    apply list_elem_of_lookup in Hr. destruct Hr as [i Hi].
    rewrite (lookup_zip_with (zip_with f) a b) in Hi.
    destruct (a !! i) as [ra|] eqn:Ea; [|discriminate].
    destruct (b !! i) as [rb|] eqn:Eb; [|discriminate].
    injection Hi as <-. rewrite length_zip_with.
    rewrite Forall_forall in Wa. rewrite Forall_forall in Wb.
    rewrite (Wa ra), (Wb rb); [lia| |]; eapply list_elem_of_lookup_2; eassumption.
Qed.

(** In a raster of [h] rows and [w] columns the pixels are those at
    0 <= y < h, 0 <= x < w. *)
Lemma rect_get2 {A} h w (a : list (list A)) y x :
  rect h w a -> 0 <= y < Z.of_nat h -> 0 <= x < Z.of_nat w -> exists v, get2 a y x = Some v.
Proof.
  intros [Hh Hw] Hy Hx.
  destruct (lookup_lt_is_Some_2 a (Z.to_nat y)) as [r Hr]; [lia|].
  assert (Hlen : length r = w).
  { rewrite Forall_forall in Hw. apply Hw. eapply list_elem_of_lookup_2. exact Hr. }
  destruct (lookup_lt_is_Some_2 r (Z.to_nat x)) as [v Hv]; [lia|].
  exists v. apply get2_Some. repeat split; try lia. now exists r.
Qed.

End Raster.

(** ** Morphology with the 2x2 kernel *)

Section Morphology.
Implicit Types (y x : Z) (src : list (list Z)).

Lemma kernel_offsets_ones :
  kernel_offsets (np_ones 2 2) = [(-1, -1); (-1, 0); (0, -1); (0, 0)].
Proof. reflexivity. Qed.

(** The fold of [morph_pixel] returns the border value or a pixel under
    the kernel, and one that is extreme for the order of [op]. *)
Lemma morph_pixel_extreme (op : Z -> Z -> Z) (le : Z -> Z -> Prop) :
  (forall a b, op a b = a \/ op a b = b) ->
  (forall a b, le (op a b) a /\ le (op a b) b) ->
  (forall a, le a a) ->
  (forall a b c, le a b -> le b c -> le a c) ->
  forall border src offsets (i j : nat),
    let m := morph_pixel op border src offsets i j in
    le m border /\
    (forall d v, In d offsets ->
       get2 src (Z.of_nat i + fst d) (Z.of_nat j + snd d) = Some v -> le m v) /\
    (m = border \/
     exists d, In d offsets /\
               get2 src (Z.of_nat i + fst d) (Z.of_nat j + snd d) = Some m).
Proof.
  intros Hsel Hle Hrefl Htrans border src offsets i j.
  induction offsets as [|d offsets IH]; simpl.
  - split; [apply Hrefl|]. split; [intros d v []|now left].
  - destruct IH as (Hb & Hall & Hatt).
    fold (morph_pixel op border src offsets i j) in *.
    set (m := morph_pixel op border src offsets i j) in *.
    destruct (get2 src (Z.of_nat i + fst d) (Z.of_nat j + snd d)) as [v|] eqn:E.
    + destruct (Hle v m) as [Hv Hm].
      split; [eapply Htrans; eassumption|]. split.
      * intros d' v' [<-|Hd'] E'.
        -- rewrite E in E'. injection E' as <-. exact Hv.
        -- eapply Htrans; [exact Hm|]. eapply Hall; eassumption.
      * destruct (Hsel v m) as [->| ->].
        -- right. exists d. split; [now left|exact E].
        -- destruct Hatt as [Eb|(d' & Hd' & E')]; [now left|].
           right. exists d'. split; [now right|exact E'].
    + split; [exact Hb|]. split.
      * intros d' v' [<-|Hd'] E'; [congruence|]. eapply Hall; eassumption.
      * destruct Hatt as [Eb|(d' & Hd' & E')]; [now left|].
        right. exists d'. split; [now right|exact E'].
Qed.

Lemma under_kernel_offset src y x u :
  under_kernel src y x u <->
  exists d, In d [(-1, -1); (-1, 0); (0, -1); (0, 0)] /\
            get2 src (y + fst d) (x + snd d) = Some u.
Proof.
  unfold under_kernel. split.
  - intros (dy & dx & Hdy & Hdx & E).
    exists (- dy, - dx). simpl fst; simpl snd.
    replace (y + - dy) with (y - dy) by lia. replace (x + - dx) with (x - dx) by lia.
    split; [|exact E].
    destruct Hdy as [-> | ->], Hdx as [-> | ->]; simpl; tauto.
  - intros (d & Hd & E). simpl in Hd.
    exists (- fst d), (- snd d).
    replace (y - - fst d) with (y + fst d) by lia.
    replace (x - - snd d) with (x + snd d) by lia.
    split; [|split; [|exact E]];
      repeat destruct Hd as [<-|Hd]; simpl; try tauto; destruct Hd.
Qed.

(** Erosion with the 2x2 kernel: the least pixel under the kernel. *)
Lemma erode_erosion src :
  (forall y x v, get2 src y x = Some v -> v <= 255) ->
  erosion_of src (erode src (np_ones 2 2)).
Proof.
  intros Hmax y x v Ev.
  destruct (proj1 (get2_Some src y x v) Ev) as (Hy & Hx & _).
  unfold erode. rewrite (get2_morph _ _ _ _ _ _ _ Ev), kernel_offsets_ones.
  eexists. split; [reflexivity|].
  destruct (morph_pixel_extreme Z.min Z.le) with
    (border := 255) (src := src) (offsets := [(-1, -1); (-1, 0); (0, -1); (0, 0)])
    (i := Z.to_nat y) (j := Z.to_nat x) as (Hb & Hall & Hatt);
    try (intros; lia).
  rewrite !Z2Nat.id in Hall, Hatt by assumption.
  set (m := morph_pixel Z.min 255 src _ _ _) in *.
  split.
  - apply under_kernel_offset.
    destruct Hatt as [Em|Hatt]; [|exact Hatt].
    exists (0, 0). split; [simpl; tauto|]. simpl fst; simpl snd.
    rewrite !Z.add_0_r.
    assert (m <= v).
    { apply (Hall (0, 0)); [simpl; tauto|]. simpl. now rewrite !Z.add_0_r. }
    specialize (Hmax y x v Ev). replace m with v by lia. exact Ev.
  - intros u Hu. apply under_kernel_offset in Hu. destruct Hu as (d & Hd & E).
    eapply Hall; eassumption.
Qed.

(** Dilation with the 2x2 kernel: the greatest pixel under the kernel. *)
Lemma dilate_dilation src :
  (forall y x v, get2 src y x = Some v -> 0 <= v) ->
  dilation_of src (dilate src (np_ones 2 2)).
Proof.
  intros Hmin y x v Ev.
  destruct (proj1 (get2_Some src y x v) Ev) as (Hy & Hx & _).
  unfold dilate. rewrite (get2_morph _ _ _ _ _ _ _ Ev), kernel_offsets_ones.
  eexists. split; [reflexivity|].
  destruct (morph_pixel_extreme Z.max (fun a b => b <= a)) with
    (border := 0) (src := src) (offsets := [(-1, -1); (-1, 0); (0, -1); (0, 0)])
    (i := Z.to_nat y) (j := Z.to_nat x) as (Hb & Hall & Hatt);
    try (intros; lia).
  rewrite !Z2Nat.id in Hall, Hatt by assumption.
  set (m := morph_pixel Z.max 0 src _ _ _) in *.
  split.
  - apply under_kernel_offset.
    destruct Hatt as [Em|Hatt]; [|exact Hatt].
    exists (0, 0). split; [simpl; tauto|]. simpl fst; simpl snd.
    rewrite !Z.add_0_r.
    assert (v <= m).
    { apply (Hall (0, 0)); [simpl; tauto|]. simpl. now rewrite !Z.add_0_r. }
    specialize (Hmin y x v Ev). replace m with v by lia. exact Ev.
  - intros u Hu. apply under_kernel_offset in Hu. destruct Hu as (d & Hd & E).
    eapply Hall; eassumption.
Qed.

End Morphology.

(** ** Page Cleaner: what a run computes *)

Section Cleaner.
Context `{cv : CV2}.
Implicit Types (y x : Z) (g : list (list Z)) (t : list (list Q)) (s : state).

Lemma map_zip_with {A B C D} (f : C -> D) (h : A -> B -> C) (l : list A) (k : list B) :
  map f (zip_with h l k) = zip_with (fun a b => f (h a b)) l k.
Proof.
  revert k. induction l as [|a l IH]; intros [|b k]; simpl; try reflexivity.
  now rewrite IH.
Qed.

Lemma zip_with_ext_all {A B C} (f f' : A -> B -> C) (l : list A) (k : list B) :
  (forall a b, f a b = f' a b) -> zip_with f l k = zip_with f' l k.
Proof.
  intros E. revert k. induction l as [|a l IH]; intros [|b k]; simpl; try reflexivity.
  now rewrite E, IH.
Qed.

Lemma img_as_ubyte_binarize g t :
  map (map (fun b : bool => if b then 255 else 0))
      (zip_with (zip_with (fun (v : Z) (th : Q) => Qltb th (inject_Z v))) g t) =
  binarize g t.
Proof.
  unfold binarize. rewrite map_zip_with.
  apply zip_with_ext_all. intros r1 r2. apply map_zip_with.
Qed.

Lemma well_formed_channels c : well_formed (Arr3 c) -> channels c = 3%nat.
Proof.
  intros (Hh & Hw & _ & Hpx). simpl in Hh, Hw.
  destruct c as [|[|px r] c]; simpl in *; try lia.
  apply Forall_cons in Hpx. destruct Hpx as [Hr _].
  apply Forall_cons in Hr. now destruct Hr as [[E _] _].
Qed.

Lemma run_np_rsub {B} r g (k : nat -> M B) s :
  heap s !! r = Some (Arr2 g) ->
  (np_rsub 255 r ≫= k) s = k (length (heap s)) (State (heap s ++ [Arr2 (invert g)]) (log s)).
Proof.
  intros E. unfold np_rsub. rewrite run_assoc, (run_load r (Arr2 g)) by assumption.
  apply run_alloc.
Qed.

Lemma run_erode {B} r g kernel (k : nat -> M B) s :
  heap s !! r = Some (Arr2 g) ->
  (cv2_erode r kernel ≫= k) s =
  k (length (heap s)) (State (heap s ++ [Arr2 (erode g kernel)]) (log s)).
Proof.
  intros E. unfold cv2_erode. rewrite run_assoc, (run_load_gray r g) by assumption.
  apply run_alloc.
Qed.

Lemma run_dilate {B} r g kernel (k : nat -> M B) s :
  heap s !! r = Some (Arr2 g) ->
  (cv2_dilate r kernel ≫= k) s =
  k (length (heap s)) (State (heap s ++ [Arr2 (dilate g kernel)]) (log s)).
Proof.
  intros E. unfold cv2_dilate. rewrite run_assoc, (run_load_gray r g) by assumption.
  apply run_alloc.
Qed.

Ltac last_cell := cbn [heap]; apply list_lookup_middle; reflexivity.

(** The steps of [clean_up_image] after the grayscale conversion, [gray]
    referring to the raster [g]. *)
Lemma clean_steps_run gray g t h lg :
  h !! gray = Some (Arr2 g) ->
  threshold_sauvola g 25 = Ok t -> same_shape g t = true ->
  exists r h',
    (thresh ← skimage_threshold_sauvola gray 25;
     binary ← np_greater gray thresh;
     output ← img_as_ubyte binary;
     inverse ← np_rsub 255 output;
     erode ← cv2_erode inverse (np_ones 2 2);
     dilate ← cv2_dilate erode (np_ones 2 2);
     clean_image ← np_rsub 255 dilate;
     ret clean_image) (State h lg) = (Ret r, State (h ++ h') lg) /\
    (h ++ h') !! r = Some (Arr2 (cleaned g t)).
Proof.
  intros Hg Et Hs.
  unfold skimage_threshold_sauvola.
  rewrite run_assoc, (run_load_gray gray g) by assumption.
  rewrite (run_call_ok _ t) by assumption.
  unfold np_greater. rewrite run_assoc, (run_load gray (Arr2 g)) by assumption.
  rewrite Hs, run_ret.
  unfold img_as_ubyte. rewrite img_as_ubyte_binarize, run_alloc. cbn [heap log].
  rewrite (run_np_rsub _ (binarize g t)) by last_cell. cbn [heap log].
  rewrite (run_erode _ (invert (binarize g t))) by last_cell. cbn [heap log].
  rewrite (run_dilate _ (erode (invert (binarize g t)) (np_ones 2 2))) by last_cell.
  cbn [heap log].
  rewrite (run_np_rsub _ (dilate (erode (invert (binarize g t)) (np_ones 2 2))
                            (np_ones 2 2))) by last_cell.
  cbn [heap log]. fold (cleaned g t).
  eexists. eexists. split.
  - unfold mret, M_ret, ret. f_equal. f_equal.
    rewrite <- !app_assoc. simpl. reflexivity.
  - rewrite <- !app_assoc. simpl.
    rewrite lookup_app_r by (rewrite !length_app; simpl; lia).
    rewrite !length_app. simpl.
    match goal with
    | |- _ !! ?n = _ => replace n with 4%nat by lia
    end.
    reflexivity.
Qed.

End Cleaner.

Section CleanerSteps.
Context `{cv : CV2}.
Implicit Types (y x : Z) (a b g : list (list Z)) (t : list (list Q)) (s : state).

Lemma get2_morph_inv op border src kernel y x m :
  get2 (morph op border src kernel) y x = Some m -> exists v, get2 src y x = Some v.
Proof.
  rewrite get2_Some. intros (Hy & Hx & r & Er & Em).
  unfold morph in Er. rewrite list_lookup_imap in Er.
  destruct (src !! Z.to_nat y) as [r0|] eqn:E0; [|discriminate].
  injection Er as <-. rewrite list_lookup_imap in Em.
  destruct (r0 !! Z.to_nat x) as [v|] eqn:Ev; [|discriminate].
  exists v. apply get2_Some. repeat split; try assumption. now exists r0.
Qed.

Lemma get2_zip_with_inv {A B C} (f : A -> B -> C) (l : list (list A)) (k : list (list B))
    y x c :
  get2 (zip_with (zip_with f) l k) y x = Some c ->
  exists va vb, get2 l y x = Some va /\ get2 k y x = Some vb /\ c = f va vb.
Proof.
  rewrite get2_Some. intros (Hy & Hx & r & Er & Ec).
  rewrite (lookup_zip_with (zip_with f) l k) in Er.
  destruct (l !! Z.to_nat y) as [ra|] eqn:Ea; [|discriminate].
  destruct (k !! Z.to_nat y) as [rb|] eqn:Eb; [|discriminate].
  injection Er as <-.
  rewrite (lookup_zip_with f ra rb) in Ec.
  destruct (ra !! Z.to_nat x) as [va|] eqn:Eva; [|discriminate].
  destruct (rb !! Z.to_nat x) as [vb|] eqn:Evb; [|discriminate].
  injection Ec as <-.
  exists va, vb. split; [|split; [|reflexivity]];
    apply get2_Some; repeat split; try assumption; eauto.
Qed.

Lemma bw_eight_bit v : black_or_white v -> eight_bit v.
Proof. unfold eight_bit. intros [-> | ->]; lia. Qed.

(** Binarisation: 255 exactly where the gray level exceeds the threshold. *)
Lemma binarize_binarized g t : binarized g t (binarize g t).
Proof.
  intros y x v th Ev Eth. unfold binarize.
  rewrite (get2_zip_with _ g t y x v th Ev Eth).
  destruct (Qltb th (inject_Z v)) eqn:E.
  - apply Qltb_true in E. split; [reflexivity|contradiction].
  - split; [|reflexivity]. intros Hlt. apply Qltb_true in Hlt. congruence.
Qed.

Lemma pixels_binarize g t : pixels black_or_white (binarize g t).
Proof.
  intros y x v Ev. apply get2_zip_with_inv in Ev.
  destruct Ev as (va & vb & _ & _ & ->).
  destruct (Qltb vb (inject_Z va)); [now right|now left].
Qed.

Lemma invert_inverse_of a : pixels eight_bit a -> inverse_of a (invert a).
Proof.
  intros Ha y x v Ev. unfold invert. rewrite get2_map, Ev. simpl.
  specialize (Ha y x v Ev). unfold eight_bit in Ha.
  now rewrite Z.mod_small by lia.
Qed.

Lemma pixels_invert a : pixels black_or_white a -> pixels black_or_white (invert a).
Proof.
  intros Ha y x v Ev. unfold invert in Ev. rewrite get2_map in Ev.
  destruct (get2 a y x) as [u|] eqn:Eu; [|discriminate].
  injection Ev as <-. destruct (Ha y x u Eu) as [-> | ->]; [now right|now left].
Qed.

Lemma pixels_erode a :
  pixels black_or_white a -> pixels black_or_white (erode a (np_ones 2 2)).
Proof.
  intros Ha y x m Em.
  destruct (get2_morph_inv _ _ _ _ _ _ _ Em) as [v Ev].
  destruct (erode_erosion a) with (y := y) (x := x) (v := v)
    as (m' & Em' & (dy & dx & _ & _ & Eu) & _); [|exact Ev|].
  - intros y' x' v' Ev'. destruct (Ha y' x' v' Ev') as [-> | ->]; lia.
  - rewrite Em in Em'. injection Em' as <-. eapply Ha. exact Eu.
Qed.

Lemma pixels_dilate a :
  pixels black_or_white a -> pixels black_or_white (dilate a (np_ones 2 2)).
Proof.
  intros Ha y x m Em.
  destruct (get2_morph_inv _ _ _ _ _ _ _ Em) as [v Ev].
  destruct (dilate_dilation a) with (y := y) (x := x) (v := v)
    as (m' & Em' & (dy & dx & _ & _ & Eu) & _); [|exact Ev|].
  - intros y' x' v' Ev'. destruct (Ha y' x' v' Ev') as [-> | ->]; lia.
  - rewrite Em in Em'. injection Em' as <-. eapply Ha. exact Eu.
Qed.

Lemma pixels_bw_eight_bit a : pixels black_or_white a -> pixels eight_bit a.
Proof. intros Ha y x v Ev. apply bw_eight_bit. eapply Ha. exact Ev. Qed.

Lemma pixels_bw_le a : pixels black_or_white a -> forall y x v, get2 a y x = Some v -> v <= 255.
Proof. intros Ha y x v Ev. destruct (Ha y x v Ev) as [-> | ->]; lia. Qed.

Lemma pixels_bw_ge a : pixels black_or_white a -> forall y x v, get2 a y x = Some v -> 0 <= v.
Proof. intros Ha y x v Ev. destruct (Ha y x v Ev) as [-> | ->]; lia. Qed.

Lemma cleaned_rect g t h w : rect h w g -> rect h w t -> rect h w (cleaned g t).
Proof.
  intros Hg Ht. unfold cleaned, invert, dilate, erode, binarize.
  apply rect_map, rect_morph, rect_morph, rect_map. now apply rect_zip_with.
Qed.

Lemma cleaned_eight_bit g t : Forall (Forall eight_bit) (cleaned g t).
Proof.
  unfold cleaned, invert. apply Forall_map, Forall_forall. intros r _.
  apply Forall_map, Forall_forall. intros v _. simpl.
  unfold eight_bit. apply Z.mod_pos_bound. lia.
Qed.

End CleanerSteps.

Section CleanerClaims.
Context `{cv : CV2}.
Implicit Types (y x : Z) (g : list (list Z)) (t : list (list Q)) (s : state).

(** A run of [clean_up_image] on a well-formed image, when the threshold
    array is computed and has the shape of the image. *)
Lemma clean_up_image_run image a t s :
  heap s !! image = Some a -> well_formed a ->
  threshold_sauvola (gray_of a) 25 = Ok t -> same_shape (gray_of a) t = true ->
  exists r h',
    clean_up_image image s = (Ret r, State (heap s ++ h') (log s)) /\
    (heap s ++ h') !! r = Some (Arr2 (cleaned (gray_of a) t)).
Proof.
  intros Hi Hwf Et Hs. destruct s as [h lg]. cbn [heap log] in *.
  unfold clean_up_image. rewrite (run_load image a) by assumption.
  destruct a as [g|c|p].
  - cbn [ndim Nat.eqb]. rewrite run_ret. now apply clean_steps_run.
  - cbn [ndim Nat.eqb]. unfold cv2_cvtColor.
    rewrite run_assoc, (run_load image (Arr3 c)) by assumption.
    rewrite cvtColor_gray by (left; now apply well_formed_channels).
    rewrite run_assoc, run_lift, run_alloc. cbn [heap log].
    destruct (clean_steps_run (length h) (map (map luma) c) t
                (h ++ [Arr2 (map (map luma) c)]) lg) as (r & h' & Hrun & Hr);
      [apply list_lookup_middle; reflexivity|assumption|assumption|].
    exists r, (Arr2 (map (map luma) c) :: h').
    replace (h ++ Arr2 (map (map luma) c) :: h')
      with ((h ++ [Arr2 (map (map luma) c)]) ++ h') by now rewrite <- app_assoc.
    split; [exact Hrun | exact Hr].
  - destruct Hwf as (_ & _ & []).
Qed.

Lemma well_formed_gray_rect a :
  well_formed a -> rect (fst (shape2 a)) (snd (shape2 a)) (gray_of a).
Proof.
  intros (_ & _ & Hwf). destruct a as [g|c|p]; simpl in *.
  - tauto.
  - apply rect_map. tauto.
  - destruct Hwf.
Qed.

Lemma rect_shape2 h w (out : list (list Z)) :
  (0 < h)%nat -> rect h w out -> shape2 (Arr2 out) = (h, w).
Proof.
  intros Hh [El Hw]. simpl. f_equal; [assumption|].
  destruct out as [|r out]; simpl in *; [lia|].
  apply Forall_cons in Hw. tauto.
Qed.

(** C5: for every well-formed input image, grayscale or 3-channel,
    [clean_up_image] returns a single-channel (2-dimensional) 8-bit image
    whose height and width are those of the input. (The Sauvola threshold
    array is taken as computed, with the shape of its input.) *)
Theorem cleaner_output image a t s :
  heap s !! image = Some a -> well_formed a ->
  threshold_sauvola (gray_of a) 25 = Ok t -> same_shape (gray_of a) t = true ->
  exists r s' out,
    clean_up_image image s = (Ret r, s') /\
    heap s' !! r = Some (Arr2 out) /\
    ndim (Arr2 out) = 2%nat /\
    shape2 (Arr2 out) = shape2 a /\
    rect (fst (shape2 a)) (snd (shape2 a)) out /\
    Forall (Forall eight_bit) out.
Proof.
  intros Hi Hwf Et Hs.
  destruct (clean_up_image_run image a t s Hi Hwf Et Hs) as (r & h' & Hrun & Hr).
  pose proof (well_formed_gray_rect a Hwf) as Hg.
  pose proof (same_shape_rect _ _ _ _ Hs Hg) as Ht.
  pose proof (cleaned_rect _ _ _ _ Hg Ht) as Hc.
  exists r. eexists. exists (cleaned (gray_of a) t).
  split; [exact Hrun|]. split; [exact Hr|]. split; [reflexivity|].
  split; [|split; [exact Hc | apply cleaned_eight_bit]].
  destruct Hwf as (Hh & _).
  rewrite (rect_shape2 _ _ _ Hh Hc). now destruct (shape2 a).
Qed.

(** C6: [clean_up_image] binarizes each pixel to 255 exactly when its
    gray level exceeds the Sauvola threshold computed with window size 25
    and to 0 otherwise, inverts, erodes once with the 2x2 all-ones kernel,
    dilates once with the same kernel, and inverts back; the rasters of
    all the steps have the shape of the input. *)
Theorem cleaner_steps image a t s :
  heap s !! image = Some a -> well_formed a ->
  threshold_sauvola (gray_of a) 25 = Ok t -> same_shape (gray_of a) t = true ->
  exists r s' binary inverse eroded dilated out,
    clean_up_image image s = (Ret r, s') /\
    heap s' !! r = Some (Arr2 out) /\
    binarized (gray_of a) t binary /\
    inverse_of binary inverse /\
    eroded = erode inverse (np_ones 2 2) /\ erosion_of inverse eroded /\
    dilated = dilate eroded (np_ones 2 2) /\ dilation_of eroded dilated /\
    inverse_of dilated out /\
    Forall (rect (fst (shape2 a)) (snd (shape2 a))) [binary; inverse; eroded; dilated; out].
Proof.
  intros Hi Hwf Et Hs.
  destruct (clean_up_image_run image a t s Hi Hwf Et Hs) as (r & h' & Hrun & Hr).
  pose proof (well_formed_gray_rect a Hwf) as Hg.
  pose proof (same_shape_rect _ _ _ _ Hs Hg) as Ht.
  set (g := gray_of a) in *.
  pose proof (pixels_binarize g t) as P1.
  pose proof (pixels_invert _ P1) as P2.
  pose proof (pixels_erode _ P2) as P3.
  pose proof (pixels_dilate _ P3) as P4.
  assert (R1 : rect (fst (shape2 a)) (snd (shape2 a)) (binarize g t))
    by now apply rect_zip_with.
  exists r. eexists.
  exists (binarize g t), (invert (binarize g t)),
    (erode (invert (binarize g t)) (np_ones 2 2)),
    (dilate (erode (invert (binarize g t)) (np_ones 2 2)) (np_ones 2 2)),
    (cleaned g t).
  split; [exact Hrun|]. split; [exact Hr|].
  split; [apply binarize_binarized|].
  split; [apply invert_inverse_of; now apply pixels_bw_eight_bit|].
  split; [reflexivity|].
  split; [apply erode_erosion; now apply pixels_bw_le|].
  split; [reflexivity|].
  split; [apply dilate_dilation; now apply pixels_bw_ge|].
  split; [apply invert_inverse_of; now apply pixels_bw_eight_bit|].
  assert (R2 : rect (fst (shape2 a)) (snd (shape2 a)) (invert (binarize g t)))
    by now apply rect_map.
  assert (R3 : rect (fst (shape2 a)) (snd (shape2 a))
                 (erode (invert (binarize g t)) (np_ones 2 2)))
    by now apply rect_morph.
  assert (R4 : rect (fst (shape2 a)) (snd (shape2 a))
                 (dilate (erode (invert (binarize g t)) (np_ones 2 2)) (np_ones 2 2)))
    by now apply rect_morph.
  assert (R5 : rect (fst (shape2 a)) (snd (shape2 a)) (cleaned g t))
    by now apply cleaned_rect.
  repeat (constructor; [assumption|]). constructor.
Qed.

End CleanerClaims.

(** ** Witnesses on the concrete instance *)

Lemma fixture_measurable (c : list (Z * Z)) : @measurable Fixture.cv c.
Proof. repeat split; eexists; reflexivity. Qed.


Lemma corner_detection_witness :
  exists v res s',
    @verdict Fixture.cv (min_area (Fixture.white 60 80))
      (@candidates Fixture.cv
         [Fixture.speck; Fixture.frame (map (map (@luma Fixture.cv)) (Fixture.white_pixels 60 80))])
      v /\
    @find_document_corners Fixture.cv 0%nat (Fixture.init [Fixture.white 60 80]) = (Ret res, s') /\
    @found Fixture.cv (heap s') v res.
Proof.
  destruct (@corner_detection Fixture.cv 0%nat (Fixture.white_pixels 60 80)
              (map (map (@luma Fixture.cv)) (Fixture.white_pixels 60 80))
              [Fixture.speck;
               Fixture.frame (map (map (@luma Fixture.cv)) (Fixture.white_pixels 60 80))]
              (Fixture.init [Fixture.white 60 80]))
    as (_ & _ & _ & _ & H).
  - reflexivity.
  - reflexivity.
  - eexists. split; reflexivity.
  - reflexivity.
  - intros c _. apply fixture_measurable.
  - exact H.
Defined.



Lemma well_formed_page : well_formed Fixture.page.
Proof.
  unfold well_formed, Fixture.page, rect, eight_bit. simpl.
  repeat split; try lia; repeat (constructor; try lia).
Qed.

Lemma cleaner_output_witness :
  exists r s' out,
    @clean_up_image Fixture.cv 0%nat (Fixture.init [Fixture.page]) = (Ret r, s') /\
    heap s' !! r = Some (Arr2 out) /\
    ndim (Arr2 out) = 2%nat /\
    shape2 (Arr2 out) = shape2 Fixture.page /\
    rect (fst (shape2 Fixture.page)) (snd (shape2 Fixture.page)) out /\
    Forall (Forall eight_bit) out.
Proof.
  apply (@cleaner_output Fixture.cv 0%nat Fixture.page
           [[255 # 2; 255 # 2; 255 # 2]; [255 # 2; 255 # 2; 255 # 2]]%Q
           (Fixture.init [Fixture.page]) eq_refl well_formed_page eq_refl eq_refl).
Defined.

Lemma cleaner_steps_witness :
  exists r s' binary inverse eroded dilated out,
    @clean_up_image Fixture.cv 0%nat (Fixture.init [Fixture.page]) = (Ret r, s') /\
    heap s' !! r = Some (Arr2 out) /\
    binarized (@gray_of Fixture.cv Fixture.page)
      [[255 # 2; 255 # 2; 255 # 2]; [255 # 2; 255 # 2; 255 # 2]]%Q binary /\
    inverse_of binary inverse /\
    eroded = erode inverse (np_ones 2 2) /\ erosion_of inverse eroded /\
    dilated = dilate eroded (np_ones 2 2) /\ dilation_of eroded dilated /\
    inverse_of dilated out /\
    Forall (rect (fst (shape2 Fixture.page)) (snd (shape2 Fixture.page)))
      [binary; inverse; eroded; dilated; out].
Proof.
  apply (@cleaner_steps Fixture.cv 0%nat Fixture.page
           [[255 # 2; 255 # 2; 255 # 2]; [255 # 2; 255 # 2; 255 # 2]]%Q
           (Fixture.init [Fixture.page]) eq_refl well_formed_page eq_refl eq_refl).
Defined.

(** A run of the cleaner on the small page. *)
Example clean_up_image_page :
  let run := @clean_up_image Fixture.cv 0%nat (Fixture.init [Fixture.page]) in
  fst run = Ret 5%nat /\
  heap (snd run) !! 5%nat = Some (Arr2 [[0; 0; 255]; [0; 0; 255]]).
Proof. split; reflexivity. Qed.

(** ** Pipeline Orchestrator *)

Section Orchestrator.
Context `{cv : CV2}.


End Orchestrator.

(** *** What the stages return, whatever the primitives do *)

Section Postconditions.
Context `{cv : CV2}.
Implicit Types (s : state).

Lemma bind_inv {A B} (m : M A) (k : A -> M B) s b s' :
  (m ≫= k) s = (Ret b, s') -> exists a s1, m s = (Ret a, s1) /\ k a s1 = (Ret b, s').
Proof.
  unfold mbind, M_bind, bind. destruct (m s) as [[a|e] s1]; [|discriminate].
  intros E. now exists a, s1.
Qed.

Lemma call_inv {A} (x : lib A) s a s' : call x s = (Ret a, s') -> x = Ok a /\ s' = s.
Proof. destruct x; simpl; [|discriminate]. now intros [= -> ->]. Qed.

Lemma alloc_inv v s r s' :
  alloc v s = (Ret r, s') -> r = length (heap s) /\ s' = State (heap s ++ [v]) (log s).
Proof. unfold alloc. now intros [= <- <-]. Qed.

Lemma load_inv r s a s' : load r s = (Ret a, s') -> heap s !! r = Some a /\ s' = s.
Proof.
  unfold load. destruct (heap s !! r); [|discriminate]. now intros [= -> ->].
Qed.



Lemma ensures_ret {A} (Pre : state -> Prop) (a : A) (Post : A -> state -> Prop) :
  (forall s, Pre s -> Post a s) -> ensures Pre (mret a) Post.
Proof. intros H s a' s' Hpre [= <- <-]. now apply H. Qed.

Lemma ensures_bind {A B} Pre (m : M A) Mid (k : A -> M B) Post :
  ensures Pre m Mid -> (forall a, ensures (Mid a) (k a) Post) -> ensures Pre (m ≫= k) Post.
Proof.
  intros Hm Hk s b s' Hpre Hrun.
  apply bind_inv in Hrun as (a & s1 & Em & Ek).
  eapply Hk; [|exact Ek]. eapply Hm; eassumption.
Qed.



Lemma ensures_bind_any {A B} (m : M A) (k : A -> M B) Post :
  (forall a, ensures (fun _ => True) (k a) Post) ->
  ensures (fun _ => True) (m ≫= k) Post.
Proof.
  intros Hpost. eapply ensures_bind with (Mid := fun _ _ => True); [|exact Hpost].
  intros s a s' _ _. exact I.
Qed.


End Postconditions.

Section StagePostconditions.
Context `{cv : CV2}.
Implicit Types (s : state).

Lemma for_contours_returns minArea contours :
  ensures (fun _ => True) (for_contours minArea contours) four_points.
Proof.
  induction contours as [|c rest IH]; simpl.
  - apply ensures_ret. intros s _. exact I.
  - apply ensures_bind_any. intros contour_area.
    destruct (Qltb contour_area minArea); [exact IH|].
    apply ensures_bind_any. intros peri.
    destruct (Qltb peri (inject_Z 100)); [exact IH|].
    intros s res s' _ Hrun.
    apply bind_inv in Hrun as (approx & s1 & Ha & Hrun).
    unfold cv2_approxPolyDP in Ha.
    apply bind_inv in Ha as (p & s2 & Hc & Ha). apply call_inv in Hc as [_ ->].
    apply alloc_inv in Ha as [-> ->].
    apply bind_inv in Hrun as (n & s3 & Hl & Hrun).
    unfold len in Hl. apply bind_inv in Hl as (a & s4 & Hl & Hn).
    apply load_inv in Hl as [Hl ->]. injection Hn as <- <-.
    cbn [heap] in Hl. rewrite list_lookup_middle in Hl by reflexivity.
    injection Hl as <-. cbn [shape2 fst] in Hrun.
    destruct (Nat.eqb_spec (length p) 4) as [E4|_].
    + injection Hrun as <- <-. exists p. split; [|exact E4].
      cbn [heap]. apply list_lookup_middle. reflexivity.
    + eapply IH; [exact I|exact Hrun].
Qed.

Lemma find_document_corners_returns img :
  ensures (fun _ => True) (find_document_corners img) four_points.
Proof.
  unfold find_document_corners.
  apply ensures_bind_any. intros a. destruct (shape2 a) as [height width'].
  do 5 (apply ensures_bind_any; intros ?).
  apply for_contours_returns.
Qed.


End StagePostconditions.

(** *** The orchestrator on a colour image *)

Section OrchestratorReturns.
Context `{cv : CV2}.
Implicit Types (s : state).









End OrchestratorReturns.



(** A run of the whole pipeline on a white 60x80 photograph: the frame is
    detected and rectified, and the page is cleaned. *)
Example process_image_white :
  let run := @process_image Fixture.cv (PIL (Fixture.white 60 80)) (Fixture.init []) in
  fst run = Ret (PIL (Arr2 (replicate 59 (replicate 79 0)))) /\
  log (snd run) = [st_success "Document detected and perspective corrected!"].
Proof. vm_compute. split; reflexivity. Qed.

(** * Further properties *)

(** ** Page sequence: reordering never loses a page *)

Section PageSequenceMore.
Context {A : Type}.
Implicit Types (l : list A) (i j index : Z).
Import PageSequence.

Lemma getitem_Ret l i a :
  getitem l i = Ret a -> exists k, py_index (length l) i = Ret k /\ l !! k = Some a.
Proof.
  unfold getitem. destruct (py_index (length l) i) as [k|e]; [|discriminate].
  destruct (l !! k) as [b|] eqn:E; [|discriminate].
  intros [= <-]. now exists k.
Qed.

(** Whenever the swap of two subscripts returns, it returns the list with
    the two elements exchanged. *)
Lemma swap_assign_Ret l i j l' :
  swap_assign l i j = Ret l' ->
  exists ki kj vi vj,
    l !! ki = Some vi /\ l !! kj = Some vj /\ l' = <[kj := vi]> (<[ki := vj]> l).
Proof.
  unfold swap_assign.
  destruct (getitem l j) as [vj|e] eqn:Ej; [|discriminate].
  destruct (getitem l i) as [vi|e] eqn:Ei; [|discriminate].
  apply getitem_Ret in Ej as (kj & Pj & Hj). apply getitem_Ret in Ei as (ki & Pi & Hi).
  unfold setitem. rewrite Pi, length_insert, Pj. intros [= <-].
  now exists ki, kj, vi, vj.
Qed.

Lemma swap_assign_perm l i j l' : swap_assign l i j = Ret l' -> Permutation l' l.
Proof.
  intros H. apply swap_assign_Ret in H as (ki & kj & vi & vj & Hi & Hj & ->).
  now apply Permutation_insert_swap.
Qed.

(** Reordering never loses or duplicates a page: whenever [move_image_up]
    or [move_image_down] returns, for any index at all, the list returned
    is a permutation of the list given. *)
Theorem moves_permute l index l' :
  move_image_up l index = Ret l' \/ move_image_down l index = Ret l' ->
  Permutation l' l /\ length l' = length l.
Proof.
  assert (P : Permutation l' l -> Permutation l' l /\ length l' = length l).
  { intros HP. split; [exact HP|]. now apply Permutation_length. }
  unfold move_image_up, move_image_down. intros [H|H]; apply P.
  - destruct (0 <? index); [now apply swap_assign_perm in H|].
    injection H as <-. reflexivity.
  - destruct (index <? Z.of_nat (length l) - 1); [now apply swap_assign_perm in H|].
    injection H as <-. reflexivity.
Qed.

Lemma swapped_back l l1 l2 (a b : nat) :
  swapped l l1 a b -> swapped l1 l2 b a -> l2 = l.
Proof.
  intros (L1 & A1 & B1 & O1) (L2 & A2 & B2 & O2).
  apply list_eq. intros k.
  destruct (decide (k = a)) as [->|Na]; [congruence|].
  destruct (decide (k = b)) as [->|Nb]; [congruence|].
  rewrite O2, O1 by auto. reflexivity.
Qed.

(** Moving a page up and then moving it down again restores the list, and
    so does moving it down and then up. *)
Theorem move_up_down_round_trip l index l' :
  (0 < index < Z.of_nat (length l) ->
   move_image_up l index = Ret l' -> move_image_down l' (index - 1) = Ret l) /\
  (0 <= index < Z.of_nat (length l) - 1 ->
   move_image_down l index = Ret l' -> move_image_up l' (index + 1) = Ret l).
Proof.
  split; intros Hi H.
  - destruct (move_image_up_swaps l index Hi) as (l1 & E1 & S1).
    rewrite E1 in H. injection H as <-.
    pose proof S1 as (L1 & _).
    destruct (move_image_down_swaps l1 (index - 1)) as (l2 & E2 & S2); [lia|].
    rewrite E2. f_equal.
    replace (index - 1 + 1) with index in S2 by lia.
    eapply swapped_back; eassumption.
  - destruct (move_image_down_swaps l index Hi) as (l1 & E1 & S1).
    rewrite E1 in H. injection H as <-.
    pose proof S1 as (L1 & _).
    destruct (move_image_up_swaps l1 (index + 1)) as (l2 & E2 & S2); [lia|].
    rewrite E2. f_equal.
    replace (index + 1 - 1) with index in S2 by lia.
    eapply swapped_back; [exact S1|].
    destruct S2 as (L2 & A2 & B2 & O2). repeat split; auto.
Qed.

(** [remove_image] returns the list with at most one page taken out, the
    others in their order: the whole list, or the list without the page at
    the index. *)
Theorem remove_image_sublist l index :
  exists l', remove_image l index = Ret l' /\ sublist l' l /\
             (length l' = length l \/ S (length l') = length l).
Proof.
  destruct (decide (0 <= index < Z.of_nat (length l))) as [Hi|Hi].
  - destruct (remove_image_removes l index Hi) as [E (L & _)].
    exists (delete (Z.to_nat index) l). split; [exact E|]. split; [|now right].
    apply sublist_delete.
  - exists l. split; [apply remove_image_unchanged; lia|]. split; [reflexivity|now left].
Qed.

End PageSequenceMore.

Lemma moves_permute_witness :
  Permutation [2; 1; 3] [1; 2; 3] /\ length [2; 1; 3] = length [1; 2; 3].
Proof.
  apply (moves_permute [1; 2; 3] 1 [2; 1; 3]). left. reflexivity.
Defined.

Lemma move_up_down_round_trip_witness :
  PageSequence.move_image_down [1; 3; 2] (2 - 1) = Ret [1; 2; 3].
Proof.
  apply (proj1 (move_up_down_round_trip [1; 2; 3] 2 [1; 3; 2])); [simpl; lia|reflexivity].
Defined.

(** ** PDF assembly *)

Section PdfAssembly.
Local Open Scope Q_scope.








End PdfAssembly.

(** ** Runs of the application *)

Section AppRuns.

Lemma app_bind_done {A B} (m : App A) (k : A -> App B) s a s' :
  m s = (Done a, s') -> (m ≫= k) s = k a s'.
Proof. intros E. unfold mbind, App_bind. now rewrite E. Qed.

Lemma app_bind_stop {A B} (m : App A) (k : A -> App B) s c s' :
  m s = (Stop c, s') -> (m ≫= k) s = (Stop c, s').
Proof. intros E. unfold mbind, App_bind. now rewrite E. Qed.

Lemma for_each_app {A} (body : A -> App unit) (l1 l2 : list A) s :
  for_each body (l1 ++ l2) s = (for_each body l1;; for_each body l2) s.
Proof.
  revert s. induction l1 as [|a l1 IH]; intros s; simpl.
  - reflexivity.
  - unfold mbind, App_bind. destruct (body a s) as [[[]|c] s1]; [|reflexivity].
    rewrite IH. reflexivity.
Qed.

Lemma hoare_bind {A B} P (m : App A) (k : A -> App B) Q Q' E :
  hoare P m Q E -> (forall a, hoare (Q a) (k a) Q' E) -> hoare P (m ≫= k) Q' E.
Proof.
  intros Hm Hk s Hs. specialize (Hm s Hs). unfold mbind, App_bind.
  destruct (m s) as [[a|c] s1]; [|exact Hm]. now apply Hk.
Qed.

Lemma hoare_conseq {A} (P P' : app_state -> Prop) (m : App A) (Q Q' : A -> _ -> Prop)
    (E E' : control -> _ -> Prop) :
  hoare P m Q E -> (forall s, P' s -> P s) -> (forall a s, Q a s -> Q' a s) ->
  (forall c s, E c s -> E' c s) -> hoare P' m Q' E'.
Proof.
  intros H HP HQ HE s Hs. specialize (H s (HP s Hs)).
  destruct (m s) as [[a|c] s1]; auto.
Qed.

Lemma hoare_done {A} (P : app_state -> Prop) (a : A) (Q : A -> _ -> Prop) E :
  (forall s, P s -> Q a s) -> hoare P (done a) Q E.
Proof. intros H s Hs. now apply H. Qed.

Lemma hoare_stop {A} (P : app_state -> Prop) c (Q : A -> _ -> Prop) (E : control -> _ -> Prop) :
  (forall s, P s -> E c s) -> hoare P (stop c) Q E.
Proof. intros H s Hs. now apply H. Qed.

(** Nothing that follows [st.rerun()] is run. *)
Lemma hoare_rerun_then {A} (P : app_state -> Prop) (k : unit -> App A) Q
    (E : control -> _ -> Prop) :
  (forall s, P s -> E Rerun s) -> hoare P (st_rerun ≫= k) Q E.
Proof. intros H s Hs. now apply H. Qed.

Lemma hoare_for_each {A} (I : app_state -> Prop) (body : A -> App unit) (l : list A) E :
  (forall a, a ∈ l -> hoare I (body a) (fun _ => I) E) ->
  hoare I (for_each body l) (fun _ => I) E.
Proof.
  induction l as [|a l IH]; intros H.
  - now apply hoare_done.
  - simpl. eapply hoare_bind.
    + apply H. left.
    + intros []. apply IH. intros b Hb. apply H. now right.
Qed.

Lemma hoare_get_session (P : app_state -> Prop) E :
  hoare P get_session (fun a s => P s /\ a = session s) E.
Proof. intros s Hs. simpl. auto. Qed.

Lemma hoare_get_processed (P : app_state -> Prop) (E : control -> _ -> Prop) :
  (forall s, P s -> processed_images (session s) = None -> E (Error AttributeError) s) ->
  hoare P get_processed (fun l s => P s /\ processed_images (session s) = Some l) E.
Proof.
  intros H s Hs. unfold get_processed.
  destruct (processed_images (session s)) eqn:Ep; auto.
Qed.

Lemma hoare_get_original (P : app_state -> Prop) (E : control -> _ -> Prop) :
  (forall s, P s -> original_images (session s) = None -> E (Error AttributeError) s) ->
  hoare P get_original (fun l s => P s /\ original_images (session s) = Some l) E.
Proof.
  intros H s Hs. unfold get_original.
  destruct (original_images (session s)) eqn:Ep; auto.
Qed.

Lemma hoare_on_processed (P : app_state -> Prop) f (Q : unit -> _ -> Prop)
    (E : control -> _ -> Prop) :
  (forall s, P s -> processed_images (session s) = None -> E (Error AttributeError) s) ->
  (forall s l, P s -> processed_images (session s) = Some l ->
     match f l with
     | Ret l' => Q tt (snd (set_processed l' s))
     | Raise e => E (Error (Python e)) s
     end) ->
  hoare P (on_processed f) Q E.
Proof.
  intros HN HS s Hs. unfold on_processed, mbind, App_bind, get_processed.
  destruct (processed_images (session s)) as [l|] eqn:Ep; [|now apply HN].
  specialize (HS s l Hs Ep). destruct (f l); exact HS.
Qed.

Lemma hoare_on_original (P : app_state -> Prop) f (Q : unit -> _ -> Prop)
    (E : control -> _ -> Prop) :
  (forall s, P s -> original_images (session s) = None -> E (Error AttributeError) s) ->
  (forall s l, P s -> original_images (session s) = Some l ->
     match f l with
     | Ret l' => Q tt (snd (set_original l' s))
     | Raise e => E (Error (Python e)) s
     end) ->
  hoare P (on_original f) Q E.
Proof.
  intros HN HS s Hs. unfold on_original, mbind, App_bind, get_original.
  destruct (original_images (session s)) as [l|] eqn:Ep; [|now apply HN].
  specialize (HS s l Hs Ep). destruct (f l); exact HS.
Qed.

End AppRuns.

(** ** The upload loop *)

Section Uploads.
Context `{cv : CV2} `{pil : Pillow}.

Lemma existsb_name (n : string) (l : list string) :
  existsb (String.eqb n) l = true <-> n ∈ l.
Proof.
  rewrite existsb_exists, list_elem_of_In. split.
  - intros (x & Hx & E). apply String.eqb_eq in E. now subst.
  - intros H. exists n. split; [exact H | apply String.eqb_refl].
Qed.

Lemma upload_taken_up f s o :
  original_images (session s) = Some o -> name f ∈ map snd o ->
  upload f s = (Done tt, s).
Proof.
  intros Ho Hn. unfold upload.
  rewrite (app_bind_done get_original _ s o s) by (unfold get_original; now rewrite Ho).
  now rewrite (proj2 (existsb_name _ _) Hn).
Qed.

Lemma uploads_taken_up files s :
  is_Some (original_images (session s)) -> taken_up files s ->
  for_each upload files s = (Done tt, s).
Proof.
  intros [o Ho] H. induction H as [|f files Hf _ IH]; simpl; [reflexivity|].
  unfold originals in Hf. rewrite Ho in Hf. simpl in Hf.
  rewrite (app_bind_done (upload f) _ s tt s) by now apply (upload_taken_up f s o).
  exact IH.
Qed.

Lemma main_taken_up files pressed s :
  is_Some (processed_images (session s)) -> is_Some (original_images (session s)) ->
  taken_up files s ->
  main files pressed s = main [] pressed s.
Proof.
  intros [p Hp] [o Ho] H. unfold main.
  rewrite !(app_bind_done get_session _ s (session s) s) by reflexivity.
  rewrite Hp, !(app_bind_done (done tt) _ s tt s) by reflexivity.
  rewrite !(app_bind_done get_session _ s (session s) s) by reflexivity.
  rewrite Ho, !(app_bind_done (done tt) _ s tt s) by reflexivity.
  rewrite (app_bind_done (for_each upload files) _ s tt s)
    by (apply uploads_taken_up; eauto).
  reflexivity.
Qed.


End Uploads.


(** ** The review loop and the buttons *)

Section Review.
Import PageSequence.
Implicit Types (p o : list (Image * string)) (pressed : button -> bool).

Lemma only_pressed_this b pressed : only_pressed b pressed -> pressed b = true.
Proof. intros H. now apply H. Qed.

Lemma only_pressed_other b pressed b' :
  only_pressed b pressed -> b' <> b -> pressed b' = false.
Proof.
  intros H Hne. destruct (pressed b') eqn:E; [|reflexivity].
  now apply H in E.
Qed.

Lemma guard_off (c : bool) b pressed b' :
  only_pressed b pressed -> b' <> b -> c && pressed b' = false.
Proof. intros H Hne. rewrite (only_pressed_other b pressed b' H Hne). apply andb_false_r. Qed.

Lemma get_processed_run {B} (k : _ -> App B) s p :
  processed_images (session s) = Some p -> (get_processed ≫= k) s = k p s.
Proof. intros H. apply app_bind_done. unfold get_processed. now rewrite H. Qed.

Lemma get_original_run {B} (k : _ -> App B) s o :
  original_images (session s) = Some o -> (get_original ≫= k) s = k o s.
Proof. intros H. apply app_bind_done. unfold get_original. now rewrite H. Qed.

Lemma done_run {A B} (a : A) (k : A -> App B) s : (done a ≫= k) s = k a s.
Proof. reflexivity. Qed.

Lemma on_processed_run {B} f (k : unit -> App B) s p p' :
  processed_images (session s) = Some p -> f p = Ret p' ->
  (on_processed f ≫= k) s = k tt (snd (set_processed p' s)).
Proof.
  intros Hp Hf. apply app_bind_done. unfold on_processed.
  rewrite (get_processed_run _ s p Hp), Hf. reflexivity.
Qed.

Lemma on_original_run {B} f (k : unit -> App B) s o o' :
  original_images (session s) = Some o -> f o = Ret o' ->
  (on_original f ≫= k) s = k tt (snd (set_original o' s)).
Proof.
  intros Ho Hf. apply app_bind_done. unfold on_original.
  rewrite (get_original_run _ s o Ho), Hf. reflexivity.
Qed.

Lemma guard_not_taken (c b : bool) (X : App unit) :
  c && b = false -> (if c then if b then X else done tt else done tt) = done tt.
Proof. destruct c, b; simpl; try discriminate; reflexivity. Qed.

Lemma guard_taken (c b : bool) (X : App unit) :
  c = true -> b = true -> (if c then if b then X else done tt else done tt) = X.
Proof. now intros -> ->. Qed.

(** A page none of whose buttons takes effect is drawn and nothing else. *)
Lemma review_idle pressed i s p o :
  processed_images (session s) = Some p -> original_images (session s) = Some o ->
  (i < length o)%nat ->
  (0 <? i)%nat && pressed (move_up_ i) = false ->
  (Z.of_nat i <? Z.of_nat (length p) - 1) && pressed (down_ i) = false ->
  pressed (remove_ i) = false ->
  review pressed i s = (Done tt, s).
Proof.
  intros Hp Ho Hi Hu Hd Hr. unfold review.
  rewrite (guard_not_taken _ _ _ Hu), done_run, (get_processed_run _ s p Hp).
  rewrite (guard_not_taken _ _ _ Hd), Hr, !done_run, (get_original_run _ s o Ho).
  destruct (lookup_lt_is_Some_2 o i Hi) as [x ->]. reflexivity.
Qed.

Lemma reviews_idle pressed s p o (a n : nat) :
  processed_images (session s) = Some p -> original_images (session s) = Some o ->
  (a + n <= length o)%nat ->
  (forall j, (a <= j < a + n)%nat ->
     pressed (move_up_ j) = false /\ pressed (down_ j) = false /\
     pressed (remove_ j) = false) ->
  for_each (review pressed) (seq a n) s = (Done tt, s).
Proof.
  intros Hp Ho. revert a. induction n as [|n IH]; intros a Hn H; simpl; [reflexivity|].
  destruct (H a) as (Hu & Hd & Hr); [lia|].
  rewrite (app_bind_done (review pressed a) _ s tt s).
  - apply IH; [lia|]. intros j Hj. apply H. lia.
  - apply (review_idle pressed a s p o); auto; try lia.
    + rewrite Hu. apply andb_false_r.
    + rewrite Hd. apply andb_false_r.
Qed.

Lemma review_remove pressed i s p o :
  processed_images (session s) = Some p -> original_images (session s) = Some o ->
  (i < length p)%nat ->
  (0 <? i)%nat && pressed (move_up_ i) = false ->
  (Z.of_nat i <? Z.of_nat (length p) - 1) && pressed (down_ i) = false ->
  pressed (remove_ i) = true ->
  review pressed i s = (Stop Rerun, with_lists (delete i p) o s).
Proof.
  intros Hp Ho Hi Hu Hd Hr. unfold review.
  rewrite (guard_not_taken _ _ _ Hu), done_run, (get_processed_run _ s p Hp).
  rewrite (guard_not_taken _ _ _ Hd), Hr, !done_run.
  destruct (remove_image_removes p (Z.of_nat i)) as [E _]; [lia|].
  rewrite Nat2Z.id in E.
  apply app_bind_stop. rewrite (on_processed_run _ _ s p (delete i p) Hp E).
  unfold st_rerun, stop, mbind, App_bind, set_processed, with_lists. simpl.
  now rewrite Ho.
Qed.

Lemma review_move_up pressed i s p o :
  processed_images (session s) = Some p -> original_images (session s) = Some o ->
  (0 < i < length p)%nat -> (i < length o)%nat ->
  pressed (move_up_ i) = true ->
  exists p' o',
    review pressed i s = (Stop Rerun, with_lists p' o' s) /\
    swapped p p' i (i - 1) /\ swapped o o' i (i - 1).
Proof.
  intros Hp Ho Hi Hio Hu. unfold review.
  rewrite guard_taken by (auto; apply Nat.ltb_lt; lia).
  destruct (move_image_up_swaps p (Z.of_nat i)) as (p' & Ep & Sp); [lia|].
  destruct (move_image_up_swaps o (Z.of_nat i)) as (o' & Eo & So); [lia|].
  replace (Z.to_nat (Z.of_nat i - 1)) with (i - 1)%nat in Sp, So by lia.
  rewrite Nat2Z.id in Sp, So.
  exists p', o'. split; [|now split].
  apply app_bind_stop. rewrite (on_processed_run _ _ s p p' Hp Ep).
  rewrite (on_original_run _ _ _ o o') by (simpl; auto).
  reflexivity.
Qed.

Lemma review_move_down pressed i s p o :
  processed_images (session s) = Some p -> original_images (session s) = Some o ->
  (i + 1 < length p)%nat -> (i + 1 < length o)%nat ->
  (0 <? i)%nat && pressed (move_up_ i) = false -> pressed (down_ i) = true ->
  exists p' o',
    review pressed i s = (Stop Rerun, with_lists p' o' s) /\
    swapped p p' i (i + 1) /\ swapped o o' i (i + 1).
Proof.
  intros Hp Ho Hi Hio Hu Hd. unfold review.
  rewrite (guard_not_taken _ _ _ Hu), done_run, (get_processed_run _ s p Hp).
  rewrite guard_taken by (auto; apply Z.ltb_lt; lia).
  destruct (move_image_down_swaps p (Z.of_nat i)) as (p' & Ep & Sp); [lia|].
  destruct (move_image_down_swaps o (Z.of_nat i)) as (o' & Eo & So); [lia|].
  replace (Z.to_nat (Z.of_nat i + 1)) with (i + 1)%nat in Sp, So by lia.
  rewrite Nat2Z.id in Sp, So.
  exists p', o'. split; [|now split].
  apply app_bind_stop.
  rewrite (on_processed_run _ _ s p p' Hp Ep).
  rewrite (on_original_run _ _ _ o o') by (simpl; auto).
  reflexivity.
Qed.



End Review.

(** ** One run of the script *)

Section Runs.
Context `{cv : CV2} `{pil : Pillow}.
Import PageSequence.
Implicit Types (p o : list (Image * string)) (pressed : button -> bool).

(** The first lines of [main] create the lists that are missing. *)
Lemma main_init files pressed s :
  main files pressed s = main files pressed (with_lists (pages s) (originals s) s).
Proof.
  destruct s as [[[p|] [o|] d] st]; reflexivity.
Qed.

Ltac enter_main s Hp Ho :=
  unfold main;
  rewrite (app_bind_done get_session _ s (session s) s) by reflexivity;
  rewrite Hp, done_run;
  rewrite (app_bind_done get_session _ s (session s) s) by reflexivity;
  rewrite Ho, done_run;
  cbn [for_each]; rewrite done_run;
  rewrite (get_processed_run _ s _ Hp).

Lemma main_stops_in_review files pressed s p o c s' :
  processed_images (session s) = Some p -> original_images (session s) = Some o ->
  taken_up files s ->
  for_each (review pressed) (seq 0 (length p)) s = (Stop c, s') ->
  main files pressed s = (Stop c, s').
Proof.
  intros Hp Ho Hf H. rewrite main_taken_up by eauto.
  enter_main s Hp Ho.
  destruct p as [|x p]; [discriminate|].
  now apply app_bind_stop.
Qed.

Lemma reviews_until pressed s p o (i : nat) :
  processed_images (session s) = Some p -> original_images (session s) = Some o ->
  (i < length p <= length o)%nat ->
  (forall j, (j < i)%nat ->
     pressed (move_up_ j) = false /\ pressed (down_ j) = false /\
     pressed (remove_ j) = false) ->
  for_each (review pressed) (seq 0 (length p)) s =
  (review pressed i;; for_each (review pressed) (seq (S i) (length p - S i))) s.
Proof.
  intros Hp Ho Hi H.
  replace (length p) with (i + S (length p - S i))%nat at 1 by lia.
  rewrite seq_app, for_each_app. simpl.
  rewrite (app_bind_done (for_each (review pressed) (seq 0 i)) _ s tt s).
  - reflexivity.
  - apply (reviews_idle pressed s p o); auto; try lia. intros j Hj. apply H. lia.
Qed.

(** The Remove button takes the page out of the processed images and
    leaves its original in place: the run is restarted before the second
    list is touched. *)
Theorem remove_run files pressed s p o (i : nat) :
  processed_images (session s) = Some p ->
  original_images (session s) = Some o ->
  taken_up files s ->
  (i < length p <= length o)%nat ->
  only_pressed (remove_ i) pressed ->
  main files pressed s = (Stop Rerun, with_lists (delete i p) o s).
Proof.
  intros Hp Ho Hf Hi Hb.
  apply (main_stops_in_review files pressed s p o); auto.
  rewrite (reviews_until pressed s p o i); auto.
  - apply app_bind_stop. apply (review_remove pressed i s p o); auto; try lia.
    + apply (guard_off _ _ _ _ Hb). discriminate.
    + apply (guard_off _ _ _ _ Hb). discriminate.
    + now apply only_pressed_this.
  - intros j Hj. repeat split; apply (only_pressed_other _ _ _ Hb); try discriminate.
    intros [= ->]. lia.
Qed.

(** The Move Up and Move Down buttons exchange the page with its
    neighbour in both lists, so pages and originals stay paired. *)
Theorem move_run files pressed s p o (i j : nat) :
  processed_images (session s) = Some p ->
  original_images (session s) = Some o ->
  taken_up files s ->
  (length p <= length o)%nat ->
  (only_pressed (move_up_ i) pressed /\ (0 < i < length p)%nat /\ j = (i - 1)%nat) \/
  (only_pressed (down_ i) pressed /\ (i + 1 < length p)%nat /\ j = (i + 1)%nat) ->
  exists p' o',
    main files pressed s = (Stop Rerun, with_lists p' o' s) /\
    swapped p p' i j /\ swapped o o' i j.
Proof.
  intros Hp Ho Hf Hpo [(Hb & Hi & ->) | (Hb & Hi & ->)].
  - destruct (review_move_up pressed i s p o) as (p' & o' & E & Sp & So); auto; try lia.
    { now apply only_pressed_this. }
    exists p', o'. split; [|now split].
    apply (main_stops_in_review files pressed s p o); auto.
    rewrite (reviews_until pressed s p o i); auto; try lia.
    + now apply app_bind_stop.
    + intros k Hk. repeat split; apply (only_pressed_other _ _ _ Hb); try discriminate.
      intros [= ->]. lia.
  - destruct (review_move_down pressed i s p o) as (p' & o' & E & Sp & So); auto; try lia.
    { apply (guard_off _ _ _ _ Hb). discriminate. }
    { now apply only_pressed_this. }
    exists p', o'. split; [|now split].
    apply (main_stops_in_review files pressed s p o); auto.
    rewrite (reviews_until pressed s p o i); auto; try lia.
    + now apply app_bind_stop.
    + intros k Hk. repeat split; apply (only_pressed_other _ _ _ Hb); try discriminate.
      intros [= ->]. lia.
Qed.



Lemma no_button_idle b pressed (j : nat) :
  only_pressed b pressed ->
  b = Create_PDF \/ b = Clear_All_Images ->
  pressed (move_up_ j) = false /\ pressed (down_ j) = false /\
  pressed (remove_ j) = false.
Proof.
  intros Hb Hc. repeat split; apply (only_pressed_other _ _ _ Hb);
    destruct Hc as [-> | ->]; discriminate.
Qed.

(** The Clear All button empties the processed images only: the originals
    (and a PDF built before) stay, the run being restarted before they are
    reached. As the uploader still holds the files and their names are
    still among the originals, no later run processes them again: the
    page list stays empty. *)
Theorem clear_all_run files pressed s p o :
  processed_images (session s) = Some p ->
  original_images (session s) = Some o ->
  taken_up files s ->
  (0 < length p <= length o)%nat ->
  only_pressed Clear_All_Images pressed ->
  main files pressed s = (Stop Rerun, with_lists [] o s) /\
  forall pressed',
    main files pressed' (with_lists [] o s) =
    (Done tt,
     AppState (session (with_lists [] o s))
              (State (heap (store s))
                     (log (store s) ++ [st_info "Upload some images to get started!"]))).
Proof.
  intros Hp Ho Hf Hl Hb. split.
  - rewrite main_taken_up by eauto. enter_main s Hp Ho.
    destruct p as [|x p]; [simpl in Hl; lia|].
    rewrite (app_bind_done (for_each (review pressed) _) _ s tt s).
    + rewrite (only_pressed_other _ _ Create_PDF Hb) by discriminate.
      rewrite done_run, (only_pressed_this _ _ Hb).
      unfold set_processed, st_rerun, stop, mbind, App_bind, with_lists. simpl.
      now rewrite Ho.
    + apply (reviews_idle pressed s (x :: p) o); auto; [lia|].
      intros j _. apply (no_button_idle _ _ _ Hb). now right.
  - intros pressed'. set (s' := with_lists [] o s).
    assert (Hp' : processed_images (session s') = Some []) by reflexivity.
    assert (Ho' : original_images (session s') = Some o) by reflexivity.
    rewrite main_taken_up; [reflexivity | eauto | eauto |].
    unfold taken_up, originals in *. rewrite Ho'. now rewrite Ho in Hf.
Qed.

(** The Create PDF button builds the document from the processed images
    in their current order and keeps it in the session; the two lists are
    not touched. When the document cannot be built the run stops there
    and the session stays as it was. *)
Theorem create_pdf_run files pressed s p o :
  processed_images (session s) = Some p ->
  original_images (session s) = Some o ->
  taken_up files s ->
  (0 < length p <= length o)%nat ->
  only_pressed Create_PDF pressed ->
  main files pressed s =
  match create_pdf_from_images (map fst p) with
  | Done document =>
    (Done tt,
     AppState (Session (Some p) (Some o) (Some document))
              (State (heap (store s))
                     (log (store s) ++ [st_success "PDF created successfully!"])))
  | Stop c => (Stop c, s)
  end.
Proof.
  intros Hp Ho Hf Hl Hb.
  rewrite main_taken_up by eauto. enter_main s Hp Ho.
  destruct p as [|x p]; [simpl in Hl; lia|].
  rewrite (app_bind_done (for_each (review pressed) _) _ s tt s).
  - rewrite (only_pressed_this _ _ Hb).
    rewrite (only_pressed_other _ _ Clear_All_Images Hb) by discriminate.
    unfold mbind, App_bind, get_processed, from_outcome. rewrite Hp. cbv beta iota.
    destruct (create_pdf_from_images (map fst (x :: p))) as [document|c] eqn:E.
    + unfold set_pdf_data, pipeline, notify, done. simpl. now rewrite Hp, Ho.
    + reflexivity.
  - apply (reviews_idle pressed s (x :: p) o); auto; [lia|].
    intros j _. apply (no_button_idle _ _ _ Hb). now left.
Qed.


End Runs.

(** ** What no run does *)

Section RunInvariant.
Context `{cv : CV2} `{pil : Pillow}.
Import PageSequence.
Variables (files : list uploaded_file) (pressed : button -> bool) (s0 : app_state).

Abbreviation K := (within_run files pressed s0).

Lemma within_run_session s s' : session s' = session s -> K s -> K s'.
Proof.
  unfold within_run, evolved, backed, pages, originals. intros ->. auto.
Qed.

Lemma within_run_start :
  is_Some (processed_images (session s0)) -> is_Some (original_images (session s0)) ->
  K s0.
Proof.
  intros Hp Ho. repeat split; auto.
  exists []. rewrite app_nil_r. split; [reflexivity | constructor].
Qed.

Lemma within_run_pages s l l' :
  K s -> processed_images (session s) = Some l -> (length l' <= length l)%nat ->
  K (snd (set_processed l' s)).
Proof.
  intros ((Hp & Ho & Hadd & Hb) & Hpdf) Hl Hlen.
  split; [|exact Hpdf]. split; [simpl; eauto|]. split; [exact Ho|]. split; [exact Hadd|].
  intros H0. specialize (Hb H0). unfold backed, pages, originals in *. simpl.
  rewrite Hl in Hb. simpl in Hb. lia.
Qed.

Lemma within_run_originals s l l' :
  K s -> original_images (session s) = Some l -> Permutation l' l ->
  K (snd (set_original l' s)).
Proof.
  intros ((Hp & Ho & (added & Hadd & Hnames) & Hb) & Hpdf) Hl Hperm.
  unfold originals in Hadd. rewrite Hl in Hadd. simpl in Hadd.
  split; [|exact Hpdf]. split; [exact Hp|]. split; [simpl; eauto|]. split.
  - exists added. split; [|exact Hnames]. unfold originals at 1. simpl.
    now rewrite Hperm.
  - intros H0. specialize (Hb H0). unfold backed, pages, originals in *. simpl.
    rewrite Hl in Hb. simpl in Hb. rewrite (Permutation_length Hperm). exact Hb.
Qed.

Lemma hoare_get_processed_within : hoare K get_processed (fun _ => K) (fun _ => K).
Proof.
  intros s Hs. unfold get_processed. destruct (processed_images (session s)); exact Hs.
Qed.

Lemma hoare_get_original_within : hoare K get_original (fun _ => K) (fun _ => K).
Proof.
  intros s Hs. unfold get_original. destruct (original_images (session s)); exact Hs.
Qed.

Lemma hoare_pages f :
  (forall l l', f l = Ret l' -> (length l' <= length l)%nat) ->
  hoare K (on_processed f) (fun _ => K) (fun _ => K).
Proof.
  intros Hf. apply hoare_on_processed.
  - intros s Hs H. exfalso. destruct Hs as ((Hp & _) & _). rewrite H in Hp.
    now destruct Hp.
  - intros s l Hs Hl. destruct (f l) as [l'|e] eqn:E; [|exact Hs].
    apply (within_run_pages s l l'); auto.
Qed.

Lemma hoare_originals f :
  (forall l l', f l = Ret l' -> Permutation l' l) ->
  hoare K (on_original f) (fun _ => K) (fun _ => K).
Proof.
  intros Hf. apply hoare_on_original.
  - intros s Hs H. exfalso. destruct Hs as ((_ & Ho & _) & _). rewrite H in Ho.
    now destruct Ho.
  - intros s l Hs Hl. destruct (f l) as [l'|e] eqn:E; [|exact Hs].
    apply (within_run_originals s l l'); auto.
Qed.

Lemma move_image_up_perm {A} (l l' : list A) i :
  move_image_up l i = Ret l' -> Permutation l' l.
Proof.
  unfold move_image_up. destruct (0 <? i); [apply swap_assign_perm|].
  now intros [= <-].
Qed.

Lemma move_image_down_perm {A} (l l' : list A) i :
  move_image_down l i = Ret l' -> Permutation l' l.
Proof.
  unfold move_image_down. destruct (i <? Z.of_nat (length l) - 1); [apply swap_assign_perm|].
  now intros [= <-].
Qed.

Lemma remove_image_length {A} (l l' : list A) i :
  remove_image l i = Ret l' -> (length l' <= length l)%nat.
Proof.
  intros H. destruct (decide (0 <= i < Z.of_nat (length l))) as [Hi|Hi].
  - destruct (remove_image_removes l i Hi) as [E (L & _)].
    rewrite E in H. injection H as <-. lia.
  - rewrite remove_image_unchanged in H by lia. now injection H as <-.
Qed.

Lemma hoare_review i : hoare K (review pressed i) (fun _ => K) (fun _ => K).
Proof.
  unfold review.
  apply (hoare_bind _ _ _ (fun _ => K)).
  { destruct (0 <? i)%nat; [|now apply hoare_done].
    destruct (pressed (move_up_ i)); [|now apply hoare_done].
    apply (hoare_bind _ _ _ (fun _ => K)).
    - apply hoare_pages. intros l l' H. apply move_image_up_perm in H.
      now rewrite (Permutation_length H).
    - intros _. apply (hoare_bind _ _ _ (fun _ => K)).
      + apply hoare_originals. intros l l'. apply move_image_up_perm.
      + intros _. now apply hoare_stop. }
  intros _. apply (hoare_bind _ _ _ (fun _ => K)); [apply hoare_get_processed_within|].
  intros processed. apply (hoare_bind _ _ _ (fun _ => K)).
  { destruct (Z.of_nat i <? Z.of_nat (length processed) - 1); [|now apply hoare_done].
    destruct (pressed (down_ i)); [|now apply hoare_done].
    apply (hoare_bind _ _ _ (fun _ => K)).
    - apply hoare_pages. intros l l' H. apply move_image_down_perm in H.
      now rewrite (Permutation_length H).
    - intros _. apply (hoare_bind _ _ _ (fun _ => K)).
      + apply hoare_originals. intros l l'. apply move_image_down_perm.
      + intros _. now apply hoare_stop. }
  intros _. apply (hoare_bind _ _ _ (fun _ => K)).
  { destruct (pressed (remove_ i)); [|now apply hoare_done].
    apply (hoare_bind _ _ _ (fun _ => K)).
    - apply hoare_pages. intros l l'. apply remove_image_length.
    - intros _. now apply hoare_rerun_then. }
  intros _. apply (hoare_bind _ _ _ (fun _ => K)); [apply hoare_get_original_within|].
  intros originals. destruct (originals !! i); [now apply hoare_done | now apply hoare_stop].
Qed.

Lemma hoare_upload_tail img n :
  n ∈ map name files ->
  hoare K
    (on_original (fun l => Ret (l ++ [(img, n)]));;
     processed_image ← pipeline (process_image img);
     on_processed (fun l => Ret (l ++ [(processed_image, n)])))
    (fun _ => K) (fun _ => K).
Proof.
  intros Hn s ((Hp & Ho & (added & Hadd & Hnames) & Hb) & Hpdf).
  destruct Hp as [p Hp], Ho as [o Ho].
  assert (Hadd' : Permutation (o ++ [(img, n)]) (originals s0 ++ added ++ [(img, n)])).
  { unfold originals in Hadd at 1. rewrite Ho in Hadd. simpl in Hadd.
    now rewrite Hadd, app_assoc. }
  assert (Hnames' : Forall (fun x : Image * string => snd x ∈ map name files)
                      (added ++ [(img, n)])).
  { apply Forall_app. split; [exact Hnames|]. now repeat constructor. }
  unfold backed, pages, originals in Hb. rewrite Hp, Ho in Hb. simpl in Hb.
  unfold on_original, on_processed, pipeline, get_original, get_processed,
    set_original, set_processed, mbind, App_bind.
  rewrite Ho. cbn. destruct (process_image img (store s)) as [[out|e] st']; cbn.
  - rewrite Hp. cbn. split; [|exact Hpdf].
    split; [eauto|]. split; [eauto|]. split; [eauto|].
    intros H0. unfold backed, pages, originals. simpl. rewrite !length_app. simpl.
    specialize (Hb H0). lia.
  - split; [|exact Hpdf].
    split; [rewrite Hp; eauto|]. split; [eauto|]. split; [eauto|].
    intros H0. unfold backed, pages, originals. simpl. rewrite Hp, length_app. simpl.
    specialize (Hb H0). lia.
Qed.

Lemma hoare_upload f : f ∈ files -> hoare K (upload f) (fun _ => K) (fun _ => K).
Proof.
  intros Hf. assert (Hn : name f ∈ map name files) by now apply list_elem_of_fmap_2.
  unfold upload.
  apply (hoare_bind _ _ _ (fun _ => K)); [apply hoare_get_original_within|].
  intros originals. destruct (existsb _ _); [now apply hoare_done|].
  apply (hoare_bind _ _ _ (fun _ => K)).
  { destruct (opened f); [now apply hoare_done | now apply hoare_stop]. }
  intros img. destruct (size img) as [width height].
  apply (hoare_bind _ _ _ (fun _ => K)).
  - destruct (5 * 1024 * 1024 <? file_size f); [|now apply hoare_done].
    apply (hoare_bind _ _ _ (fun _ => K)).
    + intros s Hs. apply (within_run_session s); [reflexivity | exact Hs].
    + intros _. destruct (resize img _); [now apply hoare_done | now apply hoare_stop].
  - intros img'. now apply hoare_upload_tail.
Qed.

Lemma hoare_main :
  hoare K (main files pressed) (fun _ => K) (fun _ => K).
Proof.
  unfold main.
  apply (hoare_bind _ _ _ (fun a s => K s /\ a = session s)); [apply hoare_get_session|].
  intros a. apply (hoare_bind _ _ _ (fun _ => K)).
  { intros s [Hs ->]. pose proof Hs as (([p Hp] & _) & _). rewrite Hp. exact Hs. }
  intros _.
  apply (hoare_bind _ _ _ (fun a s => K s /\ a = session s)); [apply hoare_get_session|].
  intros b. apply (hoare_bind _ _ _ (fun _ => K)).
  { intros s [Hs ->]. pose proof Hs as ((_ & [o Ho] & _) & _). rewrite Ho. exact Hs. }
  intros _. apply (hoare_bind _ _ _ (fun _ => K)).
  { apply hoare_for_each. intros f Hf. now apply hoare_upload. }
  intros _. apply (hoare_bind _ _ _ (fun _ => K)); [apply hoare_get_processed_within|].
  intros [|x p].
  { intros s Hs. apply (within_run_session s); [reflexivity | exact Hs]. }
  apply (hoare_bind _ _ _ (fun _ => K)).
  { apply hoare_for_each. intros i _. apply hoare_review. }
  intros _. apply (hoare_bind _ _ _ (fun _ => K)).
  { destruct (pressed Create_PDF) eqn:Ec; [|now apply hoare_done].
    apply (hoare_bind _ _ _ (fun _ => K)); [apply hoare_get_processed_within|].
    intros [|y q]; [now apply hoare_done|].
    apply (hoare_bind _ _ _ (fun _ => K)).
    { intros s Hs. unfold from_outcome. now destruct (create_pdf_from_images _). }
    intros document. apply (hoare_bind _ _ _ (fun _ => K)).
    - intros s ((Hp & Ho & Hadd & Hb) & Hpdf). simpl.
      split; [now repeat split|]. rewrite Ec. discriminate.
    - intros _ s Hs. apply (within_run_session s); [reflexivity | exact Hs]. }
  intros _. destruct (pressed Clear_All_Images); [|now apply hoare_done].
  apply (hoare_bind _ _ _ (fun _ => K)).
  - intros s Hs. destruct Hs as ((Hp & Ho & Hadd & Hb) & Hpdf).
    split; [|exact Hpdf]. split; [simpl; eauto|]. split; [exact Ho|].
    split; [exact Hadd|]. intros _. unfold backed, pages. simpl. lia.
  - intros _. now apply hoare_rerun_then.
Qed.

End RunInvariant.

Section RunTheorems.
Context `{cv : CV2} `{pil : Pillow}.

Lemma main_within_run files pressed s :
  within_run files pressed (with_lists (pages s) (originals s) s)
    (snd (main files pressed s)).
Proof.
  rewrite main_init. set (s0 := with_lists (pages s) (originals s) s).
  pose proof (hoare_main files pressed s0 s0) as H.
  destruct (main files pressed s0) as [[[]|c] s']; apply H;
    apply within_run_start; simpl; eauto.
Qed.

(** No run leaves a page without an original at its position: if the
    processed images are no more than the originals before a run, they
    are no more after it, however the run ends. *)
Theorem pages_stay_backed files pressed s :
  backed s -> backed (snd (main files pressed s)).
Proof.
  intros Hb. destruct (main_within_run files pressed s) as ((_ & _ & _ & H) & _).
  apply H. exact Hb.
Qed.

(** No run removes an original: after any run, however it ends and
    whatever is pressed, the originals are those of before, possibly
    reordered, with originals of uploaded files added. Remove and Clear
    All in particular leave every original in the session. *)
Theorem originals_never_dropped files pressed s :
  exists added,
    Permutation (originals (snd (main files pressed s))) (originals s ++ added) /\
    Forall (fun x => snd x ∈ map name files) added.
Proof.
  destruct (main_within_run files pressed s) as ((_ & _ & H & _) & _). exact H.
Qed.

(** The PDF kept in the session changes only in a run in which Create PDF
    is pressed: uploading, reordering, removing and clearing leave a PDF
    built before as it is, so it can be downloaded again with its old
    pages. *)
Theorem pdf_kept_until_created files pressed s :
  pressed Create_PDF = false ->
  pdf_data (session (snd (main files pressed s))) = pdf_data (session s).
Proof.
  intros Hc. destruct (main_within_run files pressed s) as (_ & H).
  now rewrite (H Hc).
Qed.

End RunTheorems.

(** ** The orchestrator: the store and the notifications *)

Section OrchestratorEffects.
Context `{cv : CV2}.

Lemma keeps_fix_perspective img corners : keeps (fun _ => True) (fix_perspective img corners).
Proof. intros s r v _ Hv. now apply fix_perspective_unchanged. Qed.

(** [process_image] as a whole changes no array that was in the store
    before it ran: it only adds arrays, whether it returns or raises. *)
Theorem process_image_leaves_store image s :
  unchanged s (snd (process_image image s)).
Proof.
  intros r v Hv.
  assert (K : keeps (fun _ => True) (process_image image)); [|now apply K].
  unfold process_image.
  apply keeps_bind; [destruct image; frame|]. intros arr.
  apply keeps_bind; [frame|]. intros img.
  apply keeps_bind.
  { apply keeps_try_except; [|intros e; frame].
    apply keeps_bind; [apply keeps_find_document_corners|].
    intros [corners|]; [|frame].
    apply keeps_try_except; [|intros e; frame].
    apply keeps_bind; [apply keeps_fix_perspective|]. intros c. frame. }
  intros corrected_image. apply keeps_bind.
  { apply keeps_try_except; [apply keeps_clean_up_image|]. intros e. frame. }
  intros final_image. frame.
Qed.









End OrchestratorEffects.



Section Notifications.
Context `{cv : CV2}.
Implicit Types (s : state).










End Notifications.

(** ** Runs on concrete sessions *)

Lemma only_pressed_only b : only_pressed b (AppFixture.only b).
Proof.
  intros b'. destruct b, b'; simpl; split; intros H;
    try discriminate; try reflexivity;
    try (apply Nat.eqb_eq in H; now subst);
    try (injection H as ->; apply Nat.eqb_refl).
Defined.

Lemma fixture_taken_up :
  taken_up AppFixture.held (AppFixture.start AppFixture.two_pages AppFixture.two_pages).
Proof. repeat constructor. Defined.


Lemma remove_run_witness :
  @main Fixture.cv AppFixture.pillow AppFixture.held (AppFixture.only (remove_ 0))
    (AppFixture.start AppFixture.two_pages AppFixture.two_pages) =
  (Stop Rerun,
   with_lists (delete 0%nat AppFixture.two_pages) AppFixture.two_pages
     (AppFixture.start AppFixture.two_pages AppFixture.two_pages)).
Proof.
  apply (@remove_run Fixture.cv AppFixture.pillow AppFixture.held
           (AppFixture.only (remove_ 0))
           (AppFixture.start AppFixture.two_pages AppFixture.two_pages)
           AppFixture.two_pages AppFixture.two_pages 0%nat).
  - reflexivity.
  - reflexivity.
  - exact fixture_taken_up.
  - simpl. lia.
  - apply only_pressed_only.
Defined.

Lemma move_run_witness :
  exists p' o',
    @main Fixture.cv AppFixture.pillow AppFixture.held (AppFixture.only (move_up_ 1))
      (AppFixture.start AppFixture.two_pages AppFixture.two_pages) =
    (Stop Rerun,
     with_lists p' o' (AppFixture.start AppFixture.two_pages AppFixture.two_pages)) /\
    PageSequence.swapped AppFixture.two_pages p' 1 0 /\
    PageSequence.swapped AppFixture.two_pages o' 1 0.
Proof.
  apply (@move_run Fixture.cv AppFixture.pillow AppFixture.held
           (AppFixture.only (move_up_ 1))
           (AppFixture.start AppFixture.two_pages AppFixture.two_pages)
           AppFixture.two_pages AppFixture.two_pages 1%nat 0%nat).
  - reflexivity.
  - reflexivity.
  - exact fixture_taken_up.
  - simpl. lia.
  - left. split; [apply only_pressed_only|]. split; [simpl; lia | reflexivity].
Defined.

Lemma clear_all_run_witness :
  @main Fixture.cv AppFixture.pillow AppFixture.held (AppFixture.only Clear_All_Images)
    (AppFixture.start AppFixture.two_pages AppFixture.two_pages) =
  (Stop Rerun,
   with_lists [] AppFixture.two_pages
     (AppFixture.start AppFixture.two_pages AppFixture.two_pages)).
Proof.
  apply (proj1 (@clear_all_run Fixture.cv AppFixture.pillow AppFixture.held
                  (AppFixture.only Clear_All_Images)
                  (AppFixture.start AppFixture.two_pages AppFixture.two_pages)
                  AppFixture.two_pages AppFixture.two_pages
                  eq_refl eq_refl fixture_taken_up
                  (conj (Nat.lt_0_succ 1) (Nat.le_refl 2))
                  (only_pressed_only Clear_All_Images))).
Defined.

Lemma create_pdf_run_witness :
  @main Fixture.cv AppFixture.pillow AppFixture.held (AppFixture.only Create_PDF)
    (AppFixture.start AppFixture.two_pages AppFixture.two_pages) =
  match create_pdf_from_images (map fst AppFixture.two_pages) with
  | Done document =>
    (Done tt,
     AppState (Session (Some AppFixture.two_pages) (Some AppFixture.two_pages)
                       (Some document))
              (State [] [st_success "PDF created successfully!"]))
  | Stop c => (Stop c, AppFixture.start AppFixture.two_pages AppFixture.two_pages)
  end.
Proof.
  apply (@create_pdf_run Fixture.cv AppFixture.pillow AppFixture.held
           (AppFixture.only Create_PDF)
           (AppFixture.start AppFixture.two_pages AppFixture.two_pages)
           AppFixture.two_pages AppFixture.two_pages).
  - reflexivity.
  - reflexivity.
  - exact fixture_taken_up.
  - simpl. lia.
  - apply only_pressed_only.
Defined.


Lemma pages_stay_backed_witness :
  backed (snd (@main Fixture.cv AppFixture.pillow
                 [UploadedFile "g.png" 1024 (Some AppFixture.scan)]
                 (AppFixture.only (remove_ 0)) (AppFixture.start [] []))).
Proof.
  apply (@pages_stay_backed Fixture.cv AppFixture.pillow
           [UploadedFile "g.png" 1024 (Some AppFixture.scan)]
           (AppFixture.only (remove_ 0)) (AppFixture.start [] [])).
  unfold backed. simpl. lia.
Defined.

Lemma pdf_kept_until_created_witness :
  pdf_data (session (snd (@main Fixture.cv AppFixture.pillow AppFixture.held
                            (AppFixture.only Clear_All_Images)
                            (AppFixture.start AppFixture.two_pages
                               AppFixture.two_pages)))) =
  pdf_data (session (AppFixture.start AppFixture.two_pages AppFixture.two_pages)).
Proof.
  apply (@pdf_kept_until_created Fixture.cv AppFixture.pillow AppFixture.held
           (AppFixture.only Clear_All_Images)
           (AppFixture.start AppFixture.two_pages AppFixture.two_pages)).
  reflexivity.
Defined.
